(** * custom.py: convenience wrappers around a chat-bot client library

    Shallow embedding of [src/dds/custom/bot.py] (QOLBot, VerboseBot) and of
    [src/ext.py] (wf_msg_or_reaction, Mapping), with the properties the
    specification states about them.

    Python objects are modelled by inductive types and records, dictionaries
    by finite maps, exceptions by a sum type, and the cooperative event loop
    by explicit schedules: a list of the points at which the loop resumes a
    task or dispatches an event. *)

From Stdlib Require Import Ascii String ZArith QArith Lia.
From Equations Require Import Equations.
From stdpp Require Import gmap strings list fin_maps pretty.

Open Scope string_scope.
Open Scope list_scope.
Open Scope Z_scope.

(** ** Python exceptions *)

Inductive exn : Type :=
| TypeError (msg : string)
| ValueError (msg : string)
| KeyError (key : string)
| IndexError (msg : string)
| AttributeError (msg : string)
| TimeoutError
| CancelledError
| QueueEmpty
| QueueFull
| OtherError (name : string).

#[global] Instance exn_eq_dec : EqDecision exn.
Proof. solve_decision. Defined.

(** The outcome of a Python call: a value, or a raised exception. *)
Inductive result (A : Type) : Type :=
| Return (a : A)
| Raise (e : exn).
Arguments Return {A} a.
Arguments Raise {A} e.

(** ** QOLBot: the job queue and its background worker *)

Module QOLBot.

(** What awaiting a job does once the job finishes. *)
Inductive outcome : Type :=
| Returns
| Raises (e : exn).

Record job : Type := Job { job_id : nat; job_outcome : outcome }.

(** [asyncio.Queue] as the bot uses it: the deque of items, the bound, and
    the counter of unfinished tasks that [task_done] decrements. *)
Record Queue : Type := MkQueue {
  maxsize : Z;
  items : list job;
  unfinished_tasks : Z
}.

Definition new_queue (size : Z) : Queue := MkQueue size [] 0.

(** [Queue.full]: a bound of zero or less means unbounded. *)
Definition full (q : Queue) : bool :=
  if decide (maxsize q <= 0) then false
  else bool_decide (maxsize q <= Z.of_nat (length (items q))).

(** [Queue.put_nowait]. *)
Definition put_nowait (q : Queue) (j : job) : result Queue :=
  if full q then Raise QueueFull
  else Return (MkQueue (maxsize q) (items q ++ [j]) (unfinished_tasks q + 1)).

(** [Queue.get]: [None] while the queue is empty (the getter stays
    suspended), otherwise the oldest item. *)
Definition get (q : Queue) : option (job * Queue) :=
  match items q with
  | [] => None
  | j :: rest => Some (j, MkQueue (maxsize q) rest (unfinished_tasks q))
  end.

(** [Queue.task_done]. *)
Definition task_done (q : Queue) : result Queue :=
  if decide (unfinished_tasks q <= 0)
  then Raise (ValueError "task_done() called too many times")
  else Return (MkQueue (maxsize q) (items q) (unfinished_tasks q - 1)).

(** The await point at which the worker coroutine is suspended. *)
Inductive wstate : Type :=
| AwaitingGet
| AwaitingJob (j : job)
| Crashed (e : exn).

Inductive trace_event : Type :=
| Started (j : job)
| Finished (j : job).

Inductive stderr_entry : Type :=
| Line (s : string)
| Traceback (e : exn).

Record bot : Type := MkBot {
  queue : Queue;
  worker : wstate;
  trace : list trace_event;
  stderr : list stderr_entry;
  enqueued : list job
}.

(** [self.loop] as [QOLBot.__init__] reads it.  The base class sets the
    attribute in its own [__init__], which the constructor calls only
    afterwards, and the class has no attribute of that name either. *)
Definition loop_before_base_init : result unit :=
  Raise (AttributeError "'QOLBot' object has no attribute 'loop'").

(** [QOLBot.__init__].  The queue is made with the bound of the
    [max_queue_size] keyword, 30 when it is absent.  Then the worker task is
    to be created through [self.loop]: reading the attribute raises, so the
    constructor never gets to the worker or to the base class. *)
Definition init (max_queue_size : option Z) : result bot :=
  let queue := new_queue (default 30 max_queue_size) in
  match loop_before_base_init with
  | Raise e => Raise e
  | Return _ => Return (MkBot queue AwaitingGet [] [] [])
  end.

Definition failure_message : string :=
  "(QOLBot Worker) Failed to do job ID '{}' - Skipping.".

(** What the [except] clause writes for a job. *)
Definition failure_log (j : job) : list stderr_entry :=
  match job_outcome j with
  | Returns => []
  | Raises e => [Line failure_message; Traceback e]
  end.

(** [__queue_worker], resumed once by the event loop at its current await
    point.  At [queue.get()] it takes the oldest job, if any, and starts
    awaiting it.  At [await job] the job has finished: an exception of any
    class is caught and logged, then the [finally] block calls [task_done],
    swallowing [QueueEmpty] only, and the loop goes back to [get]. *)
Definition queue_worker (b : bot) : bot :=
  match worker b with
  | AwaitingGet =>
      match get (queue b) with
      | None => b
      | Some (j, q') =>
          MkBot q' (AwaitingJob j) (trace b ++ [Started j]) (stderr b)
                (enqueued b)
      end
  | AwaitingJob j =>
      let tr := trace b ++ [Finished j] in
      let err := stderr b ++ failure_log j in
      match task_done (queue b) with
      | Return q' => MkBot q' AwaitingGet tr err (enqueued b)
      | Raise QueueEmpty => MkBot (queue b) AwaitingGet tr err (enqueued b)
      | Raise e => MkBot (queue b) (Crashed e) tr err (enqueued b)
      end
  | Crashed _ => b
  end.

(** A producer puts a job; when the queue is full the job is not enqueued. *)
Definition put (b : bot) (j : job) : bot :=
  match put_nowait (queue b) j with
  | Return q' =>
      MkBot q' (worker b) (trace b) (stderr b) (enqueued b ++ [j])
  | Raise _ => b
  end.

(** What the event loop does next. *)
Inductive event : Type :=
| Put (j : job)
| Resume.

Definition step (b : bot) (ev : event) : bot :=
  match ev with
  | Put j => put b j
  | Resume => queue_worker b
  end.

Definition run (b : bot) (evs : list event) : bot := fold_left step evs b.

(** The job the worker is awaiting, if any. *)
Definition running (b : bot) : list job :=
  match worker b with
  | AwaitingJob j => [j]
  | _ => []
  end.

(** The jobs the worker has awaited so far, in order. *)
Definition awaited (b : bot) : list job :=
  flat_map (fun ev => match ev with Started j => [j] | Finished _ => [] end)
           (trace b).

(** A trace in which jobs run strictly one after the other: every job in
    [done] starts and finishes before the next one starts, and the jobs of
    [cur] (at most one) have started last and not finished. *)
Definition serial_trace (done cur : list job) : list trace_event :=
  flat_map (fun j => [Started j; Finished j]) done ++ map Started cur.

(** The worker task is still there: no exception has left the loop. *)
Definition alive (b : bot) : bool :=
  match worker b with
  | Crashed _ => false
  | _ => true
  end.

(** Enough resumptions to empty the queue from [b]. *)
Definition drain (b : bot) : list event :=
  repeat Resume (2 * length (items (queue b)) + 1).

(** A program that constructs the bot and then lets producers and the event
    loop go through [evs]. *)
Definition session (max_queue_size : option Z) (evs : list event)
    : result bot :=
  match init max_queue_size with
  | Return b => Return (run b evs)
  | Raise e => Raise e
  end.

End QOLBot.

(** ** Python values, as far as the constructors inspect them *)

(** Keyword arguments of any class reach [VerboseBot.__init__]; the code asks
    two things of them, their truth value and [isinstance].  A finite float
    is the rational it denotes; [VObject] stands for an instance of any other
    class (always true, neither a number nor a dictionary). *)
#[local] Unset Elimination Schemes.
Inductive pyval : Type :=
| VNone
| VBool (b : bool)
| VInt (z : Z)
| VFloat (q : Q)
| VStr (s : string)
| VList (l : list pyval)
| VDict (entries : list (string * pyval))
| VLogEvents (connection on_ready commands command_errors : bool)
| VObject (class_name : string).
#[local] Set Elimination Schemes.

(** [bool(v)]. *)
Definition truthy (v : pyval) : bool :=
  match v with
  | VNone => false
  | VBool b => b
  | VInt z => negb (z =? 0)
  | VFloat q => negb (Qeq_bool q 0)
  | VStr s => negb (String.eqb s "")
  | VList l => match l with [] => false | _ => true end
  | VDict d => match d with [] => false | _ => true end
  | VLogEvents _ _ _ _ => true
  | VObject _ => true
  end.

(** [isinstance(v, int)]: [bool] is a subclass of [int]. *)
Definition isinstance_int (v : pyval) : bool :=
  match v with
  | VInt _ | VBool _ => true
  | _ => false
  end.

(** [isinstance(v, (dict, LogEvents))]: [LogEvents] subclasses [dict]. *)
Definition isinstance_dict (v : pyval) : bool :=
  match v with
  | VDict _ | VLogEvents _ _ _ _ => true
  | _ => false
  end.

(** [LogEvents()] with its defaults. *)
Definition LogEvents_default : pyval := VLogEvents true true true true.

(** ** textwrap.shorten, from the Python standard library

    [VerboseBot._log_bg] imports [shorten] from [textwrap].  The model
    follows [TextWrapper._wrap_chunks] and [_handle_long_word] with the
    settings [shorten] uses: [max_lines = 1], empty indents, the placeholder
    [" [...]"], [drop_whitespace], [break_long_words] and [break_on_hyphens]
    on.  Three library parts stay abstract: the splitting of the
    whitespace-collapsed text into chunks (a regular expression), the test
    [chunk.strip() == ''], and [rstrip].  A Python string is a Rocq
    [string], one character per code point. *)

Module Textwrap.

Fixpoint str_take (n : nat) (s : string) : string :=
  match n, s with
  | S n', String c s' => String c (str_take n' s')
  | _, _ => ""
  end.

Fixpoint str_drop (n : nat) (s : string) : string :=
  match n, s with
  | S n', String _ s' => str_drop n' s'
  | _, _ => s
  end.

(** [''.join(parts)]. *)
Definition join (parts : list string) : string :=
  fold_right String.append "" parts.

(** [sum(map(len, parts))]. *)
Definition total_len (parts : list string) : nat :=
  fold_right (fun p n => (String.length p + n)%nat) 0%nat parts.

Definition hyphen : ascii := "-"%char.

(** [s.rfind('-', 0, stop)]: the last index below [stop] holding a hyphen;
    [i] is the index of the first character of [s]. *)
Fixpoint rfind_hyphen_from (i stop : nat) (s : string) : option nat :=
  match s with
  | EmptyString => None
  | String c s' =>
      if (stop <=? i)%nat then None
      else match rfind_hyphen_from (S i) stop s' with
           | Some k => Some k
           | None => if Ascii.eqb c hyphen then Some i else None
           end
  end.

Definition rfind_hyphen (s : string) (stop : nat) : option nat :=
  rfind_hyphen_from 0 stop s.

(** [any(c != '-' for c in s)]. *)
Fixpoint any_non_hyphen (s : string) : bool :=
  match s with
  | EmptyString => false
  | String c s' => negb (Ascii.eqb c hyphen) || any_non_hyphen s'
  end.

Definition placeholder : string := " [...]".
(** [placeholder.lstrip()]. *)
Definition placeholder_lstrip : string := "[...]".

(** What is left to wrap: the characters and the chunks on the stack. *)
Definition work (chunks : list string) : nat :=
  (total_len chunks + length chunks)%nat.

Definition inspect {A : Type} (a : A) : {b : A | a = b} := exist _ a eq_refl.

Section Wrapper.

(** [_split_chunks] applied to [' '.join(text.strip().split())]. *)
Variable split_chunks : string -> list string.
(** [chunk.strip() == '']. *)
Variable blank : string -> bool.
(** [line.rstrip()]. *)
Variable rstrip : string -> string.

(** Where [_handle_long_word] cuts [chunk] when [space_left] columns remain:
    after the last hyphen that has a non-hyphen before it, else at
    [space_left]. *)
Definition long_word_end (chunk : string) (space_left : nat) : nat :=
  if (space_left <? String.length chunk)%nat then
    match rfind_hyphen chunk space_left with
    | Some h =>
        if (0 <? h)%nat && any_non_hyphen (str_take h chunk)
        then S h else space_left
    | None => space_left
    end
  else space_left.

(** [_handle_long_word] with [break_long_words]: the stack of chunks (next
    chunk first) and the current line after the cut. *)
Definition handle_long_word (chunks cur_line : list string)
    (cur_len width : nat) : list string * list string :=
  let space_left := if (width <? 1)%nat then 1%nat else (width - cur_len)%nat in
  match chunks with
  | [] => (chunks, cur_line)
  | chunk :: rest =>
      let e := long_word_end chunk space_left in
      (str_drop e chunk :: rest, cur_line ++ [str_take e chunk])
  end.

(** The inner [while chunks] loop: chunks are moved to the current line as
    long as they fit. *)
Fixpoint fill_line (chunks cur_line : list string) (cur_len width : nat)
    : list string * list string * nat :=
  match chunks with
  | [] => (chunks, cur_line, cur_len)
  | c :: rest =>
      if (cur_len + String.length c <=? width)%nat
      then fill_line rest (cur_line ++ [c]) (cur_len + String.length c)%nat width
      else (chunks, cur_line, cur_len)
  end.

(** The start of a pass of the outer loop, up to the test [if cur_line]: a
    blank chunk is dropped from the stack unless no line was written yet,
    the line is filled, a chunk too long for any line is cut, and a blank
    chunk ending the line is dropped.  The stack, the line and [cur_len]. *)
Definition collect_line (chunks lines : list string) (width : nat)
    : list string * list string * nat :=
  let chunks :=
    match chunks, lines with
    | c :: rest, _ :: _ => if blank c then rest else chunks
    | _, _ => chunks
    end in
  let '(chunks, cur_line, cur_len) := fill_line chunks [] 0%nat width in
  let '(chunks, cur_line, cur_len) :=
    match chunks with
    | c :: _ =>
        if (width <? String.length c)%nat then
          let '(chunks', line') :=
            handle_long_word chunks cur_line cur_len width in
          (chunks', line', total_len line')
        else (chunks, cur_line, cur_len)
    | [] => (chunks, cur_line, cur_len)
    end in
  match rev cur_line with
  | last :: before =>
      if blank last
      then (chunks, rev before, (cur_len - String.length last)%nat)
      else (chunks, cur_line, cur_len)
  | [] => (chunks, cur_line, cur_len)
  end.

(** The [while cur_line] loop of the truncating branch: [Some line] when the
    placeholder was appended after some chunk, [None] when the line ran
    empty (the loop's [else]).  [rev_line] is the current line, last chunk
    first. *)
Fixpoint add_placeholder (rev_line : list string) (cur_len width : nat)
    : option string :=
  match rev_line with
  | [] => None
  | last :: before =>
      if negb (blank last)
         && (cur_len + String.length placeholder <=? width)%nat
      then Some (join (rev rev_line ++ [placeholder]))
      else add_placeholder before (cur_len - String.length last)%nat width
  end.

(** One pass of the outer [while chunks] loop; [inl] carries the state of
    the next pass, [inr] the lines at a [break]. *)
Definition wrap_pass (chunks lines : list string) (width : nat)
    : (list string * list string) + list string :=
  let '(chunks, cur_line, cur_len) := collect_line chunks lines width in
  match cur_line with
  | [] => inl (chunks, lines)
  | _ :: _ =>
      let rest_is_droppable :=
        match chunks with
        | [] => true
        | [c] => blank c
        | _ => false
        end in
      if rest_is_droppable && (cur_len <=? width)%nat
      then inl (chunks, lines ++ [join cur_line])
      else
        match add_placeholder (rev cur_line) cur_len width with
        | Some line => inr (lines ++ [line])
        | None =>
            match rev lines with
            | prev :: earlier =>
                let prev_line := rstrip prev in
                if (String.length prev_line + String.length placeholder
                    <=? width)%nat
                then inr (rev earlier ++ [prev_line +:+ placeholder])
                else inr (lines ++ [placeholder_lstrip])
            | [] => inr (lines ++ [placeholder_lstrip])
            end
        end
  end.

Lemma length_str_drop n s :
  String.length (str_drop n s) = (String.length s - n)%nat.
Proof.
  revert s. induction n as [|n IH]; intros [|c s]; simpl; try done.
Qed.

Lemma total_len_app xs ys : total_len (xs ++ ys) = (total_len xs + total_len ys)%nat.
Proof. induction xs as [|x xs IH]; simpl; [done | rewrite IH; lia]. Qed.

Lemma rfind_hyphen_from_lt i stop s k :
  rfind_hyphen_from i stop s = Some k -> (i <= k < stop)%nat.
Proof.
  revert i. induction s as [|c s IH]; intros i; simpl; [done |].
  destruct (stop <=? i)%nat eqn:Hle; [done |].
  apply Nat.leb_gt in Hle.
  destruct (rfind_hyphen_from (S i) stop s) as [k'|] eqn:Hrec.
  - intros [= ->]. apply IH in Hrec. lia.
  - destruct (Ascii.eqb c hyphen); [|done]. intros [= ->]. lia.
Qed.

Lemma long_word_end_bounds chunk space_left :
  (1 <= space_left)%nat ->
  (1 <= long_word_end chunk space_left <= space_left)%nat.
Proof.
  intros Hsl. unfold long_word_end.
  destruct (space_left <? String.length chunk)%nat; [|lia].
  destruct (rfind_hyphen chunk space_left) as [h|] eqn:Hh; [|lia].
  apply rfind_hyphen_from_lt in Hh.
  destruct ((0 <? h)%nat && any_non_hyphen (str_take h chunk)); lia.
Qed.

(** What [fill_line] moves: a prefix of the stack goes to the end of the
    line, and the chunk left on top, if any, does not fit. *)
Lemma fill_line_spec chunks : forall cur_line cur_len width chunks' line' len',
  fill_line chunks cur_line cur_len width = (chunks', line', len') ->
  exists taken,
    chunks = taken ++ chunks' /\ line' = cur_line ++ taken /\
    len' = (cur_len + total_len taken)%nat /\
    match chunks' with
    | [] => True
    | c :: _ => (width < len' + String.length c)%nat
    end.
Proof.
  induction chunks as [|c rest IH]; intros cur_line cur_len width chunks' line' len'; simpl.
  - intros [= <- <- <-]. exists []. rewrite !app_nil_r. simpl. repeat split; try done; lia.
  - destruct (cur_len + String.length c <=? width)%nat eqn:Hfit.
    + intros Hrec. apply IH in Hrec as (taken & -> & -> & -> & Htop).
      exists (c :: taken). rewrite <- app_assoc. simpl. repeat split; try done; lia.
    + apply Nat.leb_gt in Hfit. intros [= <- <- <-]. exists [].
      rewrite app_nil_r. simpl. repeat split; try done; lia.
Qed.

Lemma work_app xs ys : work (xs ++ ys) = (work xs + work ys)%nat.
Proof. unfold work. rewrite total_len_app, length_app. lia. Qed.

(** Every pass takes something off a non-empty stack. *)
Lemma collect_line_consumes chunks lines width chunks' cur_line cur_len :
  chunks <> [] ->
  collect_line chunks lines width = (chunks', cur_line, cur_len) ->
  (work chunks' < work chunks)%nat.
Proof.
  intros Hne. unfold collect_line.
  set (chunks1 := match chunks, lines with
                  | c :: rest, _ :: _ => if blank c then rest else chunks
                  | _, _ => chunks
                  end).
  assert (work chunks1 <= work chunks
          /\ (chunks1 = chunks \/ work chunks1 < work chunks))%nat as [Hle1 Hsame].
  { subst chunks1. destruct chunks as [|c rest]; [done |].
    destruct lines as [|l ls]; [by auto |].
    destruct (blank c); [| by auto]. unfold work. simpl. lia. }
  destruct (fill_line chunks1 [] 0%nat width) as [[chunks2 line2] len2] eqn:Hfill.
  apply fill_line_spec in Hfill as (taken & Hsplit & Hline & Hlen & Htop).
  simpl in Hline, Hlen. subst line2 len2.
  assert (forall c3 l3 n3,
    match chunks2 with
    | c :: _ =>
        if (width <? String.length c)%nat then
          let '(chunks', line') := handle_long_word chunks2 taken (total_len taken) width in
          (chunks', line', total_len line')
        else (chunks2, taken, total_len taken)
    | [] => (chunks2, taken, total_len taken)
    end = (c3, l3, n3) -> (work c3 < work chunks)%nat) as Hcut.
  { intros c3 l3 n3. destruct chunks2 as [|c rest2].
    - intros [= <- <- <-]. clear -Hne.
      destruct chunks; [done | unfold work; simpl; lia].
    - destruct (width <? String.length c)%nat eqn:Hlong.
      + apply Nat.ltb_lt in Hlong. unfold handle_long_word.
        intros [= <- <- <-]. rewrite Hsplit, work_app in Hle1.
        destruct taken as [|t ts].
        * simpl.
          pose proof (long_word_end_bounds c
            (if (width <? 1)%nat then 1%nat else (width - 0)%nat)) as Hb.
          destruct (width <? 1)%nat eqn:Hw; [|apply Nat.ltb_ge in Hw].
          -- specialize (Hb ltac:(lia)). unfold work in *. simpl in *.
             rewrite length_str_drop. lia.
          -- specialize (Hb ltac:(lia)). unfold work in *. simpl in *.
             rewrite length_str_drop. lia.
        * unfold work in *. simpl in *. rewrite length_str_drop. lia.
      + apply Nat.ltb_ge in Hlong. intros [= <- <- <-].
        rewrite Hsplit, work_app in Hle1.
        destruct taken as [|t ts]; [simpl in Htop; lia |].
        unfold work in *. simpl in *. lia. }
  destruct (match chunks2 with
            | c :: _ =>
                if (width <? String.length c)%nat then
                  let '(chunks', line') := handle_long_word chunks2 taken (total_len taken) width in
                  (chunks', line', total_len line')
                else (chunks2, taken, total_len taken)
            | [] => (chunks2, taken, total_len taken)
            end) as [[c3 l3] n3] eqn:Hc.
  specialize (Hcut c3 l3 n3 eq_refl).
  destruct (rev l3) as [|last before]; [by intros [= <- _ _] |].
  destruct (blank last); by intros [= <- _ _].
Qed.

Lemma wrap_pass_consumes chunks lines width chunks' lines' :
  chunks <> [] ->
  wrap_pass chunks lines width = inl (chunks', lines') ->
  (work chunks' < work chunks)%nat.
Proof.
  intros Hne. unfold wrap_pass.
  destruct (collect_line chunks lines width) as [[c1 l1] n1] eqn:Hc.
  apply collect_line_consumes in Hc; [|done].
  destruct l1 as [|x l1]; [by intros [= <- _] |].
  destruct (_ && _); [by intros [= <- _] |].
  destruct (add_placeholder _ _ _); [done |].
  destruct (rev lines); [done |]. by destruct (_ <=? _)%nat.
Qed.

(** The outer loop of [_wrap_chunks]. *)
Equations? wrap_loop (chunks lines : list string) (width : nat)
    : list string by wf (work chunks) lt :=
wrap_loop [] lines width := lines;
wrap_loop (c :: cs) lines width
  with inspect (wrap_pass (c :: cs) lines width) := {
  | exist _ (inl (chunks', lines')) Hpass => wrap_loop chunks' lines' width
  | exist _ (inr lines') Hpass => lines' }.
Proof. by apply (wrap_pass_consumes (c :: cs) lines width chunks' lines'). Qed.

(** [_wrap_chunks]: the two width checks, then the loop. *)
Definition wrap_chunks (chunks : list string) (width : nat)
    : result (list string) :=
  if (width <=? 0)%nat then Raise (ValueError "invalid width (must be > 0)")
  else if (width <? String.length placeholder_lstrip)%nat
  then Raise (ValueError "placeholder too large for max width")
  else Return (wrap_loop chunks [] width).

(** ["\n".join(lines)]. *)
Fixpoint join_lines (lines : list string) : string :=
  match lines with
  | [] => ""
  | [l] => l
  | l :: rest => l +:+ String "010"%char (join_lines rest)
  end.

(** [shorten(text, width)]. *)
Definition shorten (text : string) (width : nat) : result string :=
  match wrap_chunks (split_chunks text) width with
  | Return lines => Return (join_lines lines)
  | Raise e => Raise e
  end.

End Wrapper.

End Textwrap.

(** ** VerboseBot: a bot that mirrors events to a logging channel *)

Module VerboseBot.

Record Permissions : Type := MkPermissions {
  manage_webhooks : bool;
  send_messages : bool
}.

Record Webhook : Type := MkWebhook { webhook_id : Z; webhook_name : string }.

(** A text channel as [_log_bg] sees it: [permissions_for(guild.me)] and the
    webhooks [webhooks()] returns. *)
Record TextChannel : Type := MkTextChannel {
  channel_id : Z;
  permissions_for_me : Permissions;
  webhooks : list Webhook
}.

(** The webhook a message goes through. *)
Inductive target : Type :=
| Created (name : string)
| Existing (w : Webhook).

(** Calls into the client library and the console, in program order. *)
Inductive effect : Type :=
| WaitUntilReady
| FetchWebhooks (channel : Z)
| CreateWebhook (channel : Z) (name : string)
| WebhookSend (via : target) (content : string)
| ChannelSend (channel : Z) (content : string)
| Print (text : string).

Section Bot.

(** The state the base class [commands.Bot] sets up, and its constructor. *)
Variable Base : Type.
Variable super_init : list pyval -> gmap string pyval -> result Base.

(** [textwrap.shorten]. *)
Variable shorten : string -> nat -> result string.

Record bot : Type := MkBot {
  _logging_channel_id : pyval;
  _logging_events : pyval;
  _log_channel : option TextChannel;
  base : Base;
  listeners : list string;
  is_ready : bool;
  channels : gmap Z TextChannel
}.

(** [VerboseBot.__init__] on positional and keyword arguments.  Both keywords are popped and
    checked before the base class is initialised; a new bot is not ready
    and has no channel in its cache. *)
Definition init (args : list pyval) (kwargs : gmap string pyval)
    : result bot :=
  let logging_channel_id := default VNone (kwargs !! "log_channel") in
  let kwargs := delete "log_channel" kwargs in
  if truthy logging_channel_id && negb (isinstance_int logging_channel_id)
  then Raise (TypeError "Logging channel ID is not an integer.")
  else
    let logging_events :=
      default LogEvents_default (kwargs !! "log_events") in
    let kwargs := delete "log_events" kwargs in
    if negb (isinstance_dict logging_events)
    then Raise
           (TypeError "Logging events is not a dictionary or LogEvents class.")
    else
      match super_init args kwargs with
      | Raise e => Raise e
      | Return b =>
          Return (MkBot logging_channel_id logging_events None b
                        ["on_command_error"; "on_ready"] false ∅)
      end.

(** [get_channel(id)]: a lookup in the dictionary of cached channels.  A
    number finds the channel stored under the integer it equals ([True] and
    [1.0] are equal to [1]); a list or a dictionary cannot be hashed; any
    other value finds nothing. *)
Definition get_channel (b : bot) (id : pyval)
    : result (option TextChannel) :=
  match id with
  | VInt z => Return (channels b !! z)
  | VBool c => Return (channels b !! (if c then 1 else 0))
  | VFloat q =>
      let r := Qred q in
      Return (if (Qden r =? 1)%positive then channels b !! Qnum r else None)
  | VList _ | VDict _ | VLogEvents _ _ _ _ =>
      Raise (TypeError "unhashable type")
  | VNone | VStr _ | VObject _ => Return None
  end.

(** [shorten(message, 2000) if shorten_if_needed and len(message) > 2000
    else message]. *)
Definition outgoing (message : string) (shorten_if_needed : bool)
    : result string :=
  if shorten_if_needed && (2000 <? String.length message)%nat
  then shorten message 2000
  else Return message.

(** [random.choice(webhooks)] on a non-empty list, [rnd] being the draw. *)
Definition random_choice (rnd : nat) (first : Webhook) (others : list Webhook)
    : Webhook :=
  nth (rnd mod S (length others)) (first :: others) first.

(** The part of [_log_bg] after the channel is resolved. *)
Definition deliver (ch : TextChannel) (message : string)
    (shorten_if_needed : bool) (rnd : nat) : list effect * result unit :=
  if manage_webhooks (permissions_for_me ch) then
    let '(before, via) :=
      match webhooks ch with
      | [] =>
          ([FetchWebhooks (channel_id ch);
            CreateWebhook (channel_id ch) "VerboseBot Logging"],
           Created "VerboseBot Logging")
      | w :: ws =>
          ([FetchWebhooks (channel_id ch)], Existing (random_choice rnd w ws))
      end in
    match outgoing message shorten_if_needed with
    | Raise e => (before, Raise e)
    | Return text => (before ++ [WebhookSend via text; Print message], Return tt)
    end
  else if send_messages (permissions_for_me ch) then
    match outgoing message shorten_if_needed with
    | Raise e => ([], Raise e)
    | Return text =>
        ([ChannelSend (channel_id ch) text; Print message], Return tt)
    end
  else ([Print message], Return tt).

(** The first block of [_log_bg]: with no channel cached yet, the bot waits
    until it is ready and looks the channel up, caching what it finds. *)
Definition resolve_channel (b : bot) : bot * list effect * result unit :=
  match _log_channel b with
  | Some _ => (b, [], Return tt)
  | None =>
      let waited := if is_ready b then [] else [WaitUntilReady] in
      let cache found :=
        MkBot (_logging_channel_id b) (_logging_events b) found (base b)
              (listeners b) true (channels b) in
      match get_channel b (_logging_channel_id b) with
      | Return found => (cache found, waited, Return tt)
      | Raise e => (cache None, waited, Raise e)
      end
  end.

(** [_log_bg(message, shorten_if_needed=...)]: the bot afterwards, the calls
    made, and the outcome.  Without a channel nothing is sent or printed.
    The message is a string, as the signature annotates it. *)
Definition _log_bg (b : bot) (message : string) (shorten_if_needed : bool)
    (rnd : nat) : bot * list effect * result unit :=
  match resolve_channel b with
  | (b, waited, Raise e) => (b, waited, Raise e)
  | (b, waited, Return _) =>
      match _log_channel b with
      | None => (b, waited, Return tt)
      | Some ch =>
          let '(effs, r) := deliver ch message shorten_if_needed rnd in
          (b, waited ++ effs, r)
      end
  end.

(** The texts that reached the platform, by either path. *)
Definition delivered (effs : list effect) : list string :=
  flat_map (fun e => match e with
                     | WebhookSend _ text | ChannelSend _ text => [text]
                     | _ => []
                     end) effs.

Definition is_webhook_send (e : effect) : bool :=
  match e with WebhookSend _ _ => true | _ => false end.

Definition is_channel_send (e : effect) : bool :=
  match e with ChannelSend _ _ => true | _ => false end.

End Bot.

End VerboseBot.

(** ** ext.py: the message-or-reaction race and the lenient format mapping *)

Module Ext.

(** An emoji of a reaction: a unicode emoji is its own text, a custom one
    prints as [<:name:id>], or [<a:name:id>] when animated. *)
Inductive Emoji : Type :=
| UnicodeEmoji (s : string)
| CustomEmoji (animated : bool) (name : string) (id : Z).

(** [str(emoji)]. *)
Definition str_emoji (e : Emoji) : string :=
  match e with
  | UnicodeEmoji s => s
  | CustomEmoji animated name id =>
      (if animated then "<a:" else "<:") +:+ name +:+ ":" +:+ pretty id +:+ ">"
  end.

(** Users, channels and messages compare by id, so an id stands for each. *)
Record Message : Type := MkMessage {
  message_id : Z;
  content : string;
  author : Z;
  channel : Z
}.

Record Reaction : Type := MkReaction {
  emoji : Emoji;
  reaction_message : Z
}.

Record Context : Type := MkContext {
  ctx_author : Z;
  ctx_channel : Z;
  ctx_message : Z
}.

(** What the gateway dispatches while the helper waits. *)
Inductive gateway_event : Type :=
| OnMessage (m : Message)
| OnReactionAdd (r : Reaction) (user : Z).

(** The dispatched events in dispatch order, each stamped with the seconds
    elapsed since the helper was called.  Events with the same stamp are
    handled within one pass of the event loop. *)
Definition timeline : Type := list (Q * gateway_event).

(** The [timeout] argument: [None], an [int] or a [float]. *)
Inductive timeout_arg : Type :=
| TNone
| TInt (z : Z)
| TFloat (q : Q).

(** [bool(timeout)]. *)
Definition timeout_truthy (t : timeout_arg) : bool :=
  match t with
  | TNone => false
  | TInt z => negb (z =? 0)
  | TFloat q => negb (Qeq_bool q 0)
  end.

(** The seconds a numeric [timeout] stands for. *)
Definition seconds (t : timeout_arg) : option Q :=
  match t with
  | TNone => None
  | TInt z => Some (inject_Z z)
  | TFloat q => Some q
  end.

(** [timeout or 120.0], as handed to [asyncio.wait]. *)
Definition effective_timeout (t : timeout_arg) : Q :=
  match t with
  | TNone => 120
  | TInt z => if timeout_truthy t then inject_Z z else 120
  | TFloat q => if timeout_truthy t then q else 120
  end.

(** A caller-supplied check: any callable, applied to a message by the
    first wait and to a reaction and a user by the second; it answers with
    a truth value or raises. *)
Record custom_check : Type := MkCheck {
  on_message : Message -> result bool;
  on_reaction : Reaction -> Z -> result bool
}.

(** What a wait resolves to. *)
Inductive resolved : Type :=
| GotMessage (m : Message)
| GotReaction (r : Reaction) (user : Z).

(** What the helper returns: a value of [pairs], or a reaction's emoji. *)
Inductive retval : Type :=
| PairValue (v : string)
| ReactionEmoji (e : Emoji).

Inductive task_name : Type := MessageTask | ReactionTask.

#[global] Instance task_name_eq_dec : EqDecision task_name.
Proof. solve_decision. Defined.

Section Helper.

(** [str.lower]. *)
Variable lower : string -> string.

(** [v in pairs.values()]. *)
Definition in_values (pairs : gmap string string) (v : string) : bool :=
  existsb (fun kv => String.eqb kv.2 v) (map_to_list pairs).

(** The default [reaction_check]. *)
Definition reaction_check (ctx : Context) (pairs : gmap string string)
    (message : Z) (r : Reaction) (u : Z) : bool :=
  if in_values pairs (str_emoji (emoji r)) then
    if u =? ctx_author ctx then
      if reaction_message r =? message then true else false
    else false
  else false.

(** The default message check, the [lambda] of the source. *)
Definition message_check (ctx : Context) (pairs : gmap string string)
    (m : Message) : bool :=
  negb (String.eqb (content m) "")
  && bool_decide (is_Some (pairs !! lower (content m)))
  && (author m =? ctx_author ctx)
  && (channel m =? ctx_channel ctx).

(** [bot.wait_for("message", check=...)]: the wait resolves at the first
    message on which the check answers true (with the message) or raises
    (with the exception). *)
Fixpoint wait_for_message (check : Message -> result bool) (tl : timeline)
    : option (Q * result resolved) :=
  match tl with
  | [] => None
  | (t, OnMessage m) :: rest =>
      match check m with
      | Return true => Some (t, Return (GotMessage m))
      | Return false => wait_for_message check rest
      | Raise e => Some (t, Raise e)
      end
  | (_, OnReactionAdd _ _) :: rest => wait_for_message check rest
  end.

(** [bot.wait_for("reaction_add", check=...)]. *)
Fixpoint wait_for_reaction (check : Reaction -> Z -> result bool)
    (tl : timeline) : option (Q * result resolved) :=
  match tl with
  | [] => None
  | (t, OnReactionAdd r u) :: rest =>
      match check r u with
      | Return true => Some (t, Return (GotReaction r u))
      | Return false => wait_for_reaction check rest
      | Raise e => Some (t, Raise e)
      end
  | (_, OnMessage _) :: rest => wait_for_reaction check rest
  end.

(** A wait that resolves strictly before the deadline [d]; one resolving at
    the deadline or later is still pending when the timer fires. *)
Definition in_time (d : Q) (w : option (Q * result resolved))
    : option (Q * result resolved) :=
  match w with
  | Some (t, r) => if Qle_bool d t then None else Some (t, r)
  | None => None
  end.

(** [asyncio.wait(tasks, timeout=d, return_when="FIRST_COMPLETED")]: the
    tasks done when the call returns, with their outcomes.  Two tasks
    resolving in the same pass of the loop are both done. *)
Definition wait (d : Q) (msg reaction : option (Q * result resolved))
    : list (task_name * result resolved) :=
  match in_time d msg, in_time d reaction with
  | None, None => []
  | Some (_, r), None => [(MessageTask, r)]
  | None, Some (_, r) => [(ReactionTask, r)]
  | Some (tm, rm), Some (tr, rr) =>
      if Qeq_bool tm tr then [(MessageTask, rm); (ReactionTask, rr)]
      else if Qle_bool tm tr then [(MessageTask, rm)]
      else [(ReactionTask, rr)]
  end.

(** The tasks of [pending], which the helper cancels. *)
Definition pending (done : list (task_name * result resolved))
    : list task_name :=
  filter (fun n => n ∉ done.*1) [MessageTask; ReactionTask].

(** [done.pop()]: a set yields its elements in no fixed order; when both
    tasks are done, [message_first] tells which one comes out. *)
Definition pop (message_first : bool)
    (done : list (task_name * result resolved))
    : option (task_name * result resolved) :=
  match done with
  | [] => None
  | [x] => Some x
  | x :: y :: _ => Some (if message_first then x else y)
  end.

(** The two checks in use: the defaults when [checks] is [None] or empty
    (both written [[]] here), else [checks[0]] and [checks[1]]; a list with a
    single entry fails on [checks[1]]. *)
Definition select_checks (ctx : Context) (pairs : gmap string string)
    (message : Z) (checks : list custom_check)
    : result ((Message -> result bool) * (Reaction -> Z -> result bool)) :=
  match checks with
  | [] =>
      Return (fun m => Return (message_check ctx pairs m),
              fun r u => Return (reaction_check ctx pairs message r u))
  | [_] => Raise (IndexError "list index out of range")
  | c0 :: c1 :: _ => Return (on_message c0, on_reaction c1)
  end.

(** [wf_msg_or_reaction(ctx, timeout=..., checks=..., message=..., **pairs)],
    run against the events of [tl]: the tasks it cancelled and its
    outcome. *)
Definition wf_msg_or_reaction (ctx : Context) (timeout : timeout_arg)
    (checks : list custom_check) (message : option Z)
    (pairs : gmap string string) (tl : timeline) (message_first : bool)
    : list task_name * result retval :=
  let message := default (ctx_message ctx) message in
  match select_checks ctx pairs message checks with
  | Raise e => ([], Raise e)
  | Return (check0, check1) =>
      let done :=
        wait (effective_timeout timeout)
             (wait_for_message check0 tl) (wait_for_reaction check1 tl) in
      let cancelled := pending done in
      match pop message_first done with
      | None => (cancelled, Raise TimeoutError)
      | Some (_, Raise e) => (cancelled, Raise e)
      | Some (_, Return (GotMessage m)) =>
          match pairs !! lower (content m) with
          | Some v => (cancelled, Return (PairValue v))
          | None => (cancelled, Raise (KeyError (lower (content m))))
          end
      | Some (_, Return (GotReaction r _)) =>
          (cancelled, Return (ReactionEmoji (emoji r)))
      end
  end.

End Helper.

(** [str.lower] on ASCII text: capital letters move to lower case, every
    other character stays. *)
Definition lower_char (c : ascii) : ascii :=
  let n := nat_of_ascii c in
  if (65 <=? n)%nat && (n <=? 90)%nat then ascii_of_nat (n + 32) else c.

Fixpoint ascii_lower (s : string) : string :=
  match s with
  | EmptyString => EmptyString
  | String c s' => String (lower_char c) (ascii_lower s')
  end.

(** Keys of a [Mapping]: strings and integers. *)
Inductive pykey : Type :=
| KStr (s : string)
| KInt (z : Z).

#[global] Instance pykey_eq_dec : EqDecision pykey.
Proof. solve_decision. Defined.

#[global] Instance pykey_countable : Countable pykey.
Proof.
  refine (inj_countable'
            (fun k => match k with KStr s => inl s | KInt z => inr z end)
            (fun x => match x with inl s => KStr s | inr z => KInt z end) _).
  intros []; reflexivity.
Defined.

(** [str(key)]. *)
Definition str_key (k : pykey) : string :=
  match k with
  | KStr s => s
  | KInt z => pretty z
  end.

(** [Mapping.__missing__(key)]. *)
Definition __missing__ (key : pykey) : pyval :=
  VStr ("{" +:+ str_key key +:+ "}").

(** [mapping[key]] on a [Mapping]: [dict] falls back on [__missing__]. *)
Definition getitem (m : gmap pykey pyval) (key : pykey) : pyval :=
  match m !! key with
  | Some v => v
  | None => __missing__ key
  end.

(** A format string cut at its replacement fields: literal text (with
    doubled braces already single), and fields, each with the text that
    stands between its braces. *)
Inductive segment : Type :=
| Literal (text : string)
| Field (name : string).

Definition is_digit (c : ascii) : bool :=
  let n := nat_of_ascii c in (48 <=? n)%nat && (n <=? 57)%nat.

Fixpoint all_digits (s : string) : bool :=
  match s with
  | EmptyString => true
  | String c s' => is_digit c && all_digits s'
  end.

(** The number a string of digits denotes, after [acc]. *)
Fixpoint digits_value (acc : N) (s : string) : N :=
  match s with
  | EmptyString => acc
  | String c s' =>
      digits_value (acc * 10 + N.of_nat (nat_of_ascii c - 48)) s'
  end.

(** The characters that make a field more than a name: attribute and index
    access, conversion, format specification, nested braces. *)
Definition is_field_syntax (c : ascii) : bool :=
  existsb (Ascii.eqb c)
    ["."%char; "["%char; "]"%char; "!"%char; ":"%char; "{"%char; "}"%char].

Fixpoint has_field_syntax (s : string) : bool :=
  match s with
  | EmptyString => false
  | String c s' => is_field_syntax c || has_field_syntax s'
  end.

(** What [str.format_map] takes the text of a field for. *)
Inductive field_kind : Type :=
| Positional
| TooManyDigits
| PlainName
| Compound.

(** An empty field is numbered automatically and a number is an index into
    the positional arguments; the largest index is [PY_SSIZE_T_MAX]. *)
Definition classify (name : string) : field_kind :=
  if has_field_syntax name then Compound
  else if String.eqb name "" then Positional
  else if all_digits name then
    if (digits_value 0 name <=? 2 ^ 63 - 1)%N then Positional
    else TooManyDigits
  else PlainName.

Section Format.

(** [format(value, "")], that is [str(value)]. *)
Variable str_of : pyval -> string.

(** One replacement field.  A plain name is looked up by subscripting the
    mapping and the value printed; [format_map] has no positional
    arguments, so a positional field raises [ValueError]; fields with
    further syntax are not covered ([None]). *)
Definition format_field (m : gmap pykey pyval) (name : string)
    : option (result string) :=
  match classify name with
  | PlainName => Some (Return (str_of (getitem m (KStr name))))
  | Positional =>
      Some (Raise (ValueError "Format string contains positional fields"))
  | TooManyDigits =>
      Some (Raise (ValueError "Too many decimal digits in format string"))
  | Compound => None
  end.

(** [template.format_map(mapping)]: the fields are formatted from left to
    right, and the first one that raises ends the call. *)
Fixpoint format_map (template : list segment) (m : gmap pykey pyval)
    : option (result string) :=
  match template with
  | [] => Some (Return "")
  | Literal text :: rest =>
      match format_map rest m with
      | Some (Return tail) => Some (Return (text +:+ tail))
      | other => other
      end
  | Field name :: rest =>
      match format_field m name with
      | Some (Return text) =>
          match format_map rest m with
          | Some (Return tail) => Some (Return (text +:+ tail))
          | other => other
          end
      | other => other
      end
  end.

(** The text of a field in the format string. *)
Definition field_source (name : string) : string := "{" +:+ name +:+ "}".

End Format.

End Ext.

(** ** QOLBot: shutdown and the message cache *)

Module QOLBotLifecycle.
Import QOLBot.

(** The worker at [await job] when awaiting [j] ends with [o]: the [except]
    and [finally] blocks of [__queue_worker], then back to [get]. *)
Definition finish_job (b : bot) (j : job) (o : outcome) : bot :=
  let tr := trace b ++ [Finished j] in
  let err := stderr b ++ failure_log (Job (job_id j) o) in
  match task_done (queue b) with
  | Return q' => MkBot q' AwaitingGet tr err (enqueued b)
  | Raise QueueEmpty => MkBot (queue b) AwaitingGet tr err (enqueued b)
  | Raise e => MkBot (queue b) (Crashed e) tr err (enqueued b)
  end.

(** [QOLBot.close]: [self._queue_worker.cancel(...)].  A worker suspended in
    [queue.get()] ends with [CancelledError].  A worker awaiting a job has
    the cancellation delivered into the job, and [await job] then ends the
    way the job reacts to it, [interrupted]: with [CancelledError] when the
    job lets it through, or any other way when the job handles it.
    ([Task.cancel] takes the message from Python 3.9 on.)  The base class's
    [close] follows and is not modelled. *)
Definition close (b : bot) (interrupted : outcome) : bot :=
  match worker b with
  | AwaitingGet =>
      MkBot (queue b) (Crashed CancelledError) (trace b) (stderr b)
            (enqueued b)
  | AwaitingJob j => finish_job b j interrupted
  | Crashed _ => b
  end.

(** [QOLBot.get_message(id)]: [discord.utils.get(self.cached_messages,
    id=id)], the first cached message with that id, [None] without one. *)
Definition get_message (cached_messages : list Ext.Message) (id : Z)
    : option Ext.Message :=
  find (fun m => Ext.message_id m =? id) cached_messages.

End QOLBotLifecycle.

(** ** VerboseBot: the event handlers *)

Module VerboseBotEvents.

(** [ctx.guild] once set: a guild of the platform, or the stand-in the
    handlers make for a direct message, whose text is the default one of a
    Python object. *)
Inductive GuildRef : Type :=
| Guild (name : string) (id : Z)
| DMChannelGuild (repr : string).

(** [str(guild)]. *)
Definition guild_str (g : GuildRef) : string :=
  match g with
  | Guild name _ => name
  | DMChannelGuild repr => repr
  end.

(** [str(guild.id)]: the stand-in has the id ["@me"]. *)
Definition guild_id_str (g : GuildRef) : string :=
  match g with
  | Guild _ id => pretty id
  | DMChannelGuild _ => "@me"
  end.

(** What the handlers read of an invocation context; [guild] is [None] in
    a direct message. *)
Record Context : Type := MkContext {
  author : string;
  author_id : Z;
  qualified_name : string;
  channel : string;
  channel_id : Z;
  guild : option GuildRef;
  n_args : nat;
  n_kwargs : nat;
  author_permissions : Z;
  bot_permissions : Z
}.

(** What [_on_command_error] reads of the exception: the name of its
    class, its [msg] attribute when it has one, and [str(err)]. *)
Record CommandError : Type := MkCommandError {
  class_name : string;
  msg : option string;
  err_str : string
}.

(** [if not ctx.guild: ctx.guild = DMChannelGuild(ctx)]; [repr] is the text
    of the new object. *)
Definition ensure_guild (ctx : Context) (repr : string) : Context :=
  match guild ctx with
  | Some _ => ctx
  | None =>
      MkContext (author ctx) (author_id ctx) (qualified_name ctx)
                (channel ctx) (channel_id ctx) (Some (DMChannelGuild repr))
                (n_args ctx) (n_kwargs ctx) (author_permissions ctx)
                (bot_permissions ctx)
  end.

(** The value of [dict.get]-like search in the items of a dictionary. *)
Fixpoint dict_lookup (entries : list (string * pyval)) (key : string)
    : option pyval :=
  match entries with
  | [] => None
  | (k, v) :: rest => if String.eqb k key then Some v else dict_lookup rest key
  end.

(** [if self._logging_events[key]]: the truth of the entry.  A [LogEvents]
    has its four keys; a plain dictionary raises [KeyError] without the
    key; other values cannot be subscripted by a string. *)
Definition event_flag (events : pyval) (key : string) : result bool :=
  match events with
  | VLogEvents connection on_ready commands command_errors =>
      if String.eqb key "connection" then Return connection
      else if String.eqb key "on_ready" then Return on_ready
      else if String.eqb key "commands" then Return commands
      else if String.eqb key "command_errors" then Return command_errors
      else Raise (KeyError key)
  | VDict entries =>
      match dict_lookup entries key with
      | Some v => Return (truthy v)
      | None => Raise (KeyError key)
      end
  | _ => Raise (TypeError "object is not subscriptable")
  end.

Definition newline : string := String "010"%char "".

Section Handlers.

(** The characters WHITE HEAVY CHECK MARK and CROSS MARK. *)
Variable check_mark : string.
Variable cross_mark : string.
(** [humanize.intcomma]. *)
Variable intcomma : nat -> string.

(** [if self._logging_events[key]: self.log(message)]: the message handed
    to [log], if any. *)
Definition log_if (events : pyval) (key : string) (message : string)
    : result (option string) :=
  match event_flag events key with
  | Raise e => Raise e
  | Return true => Return (Some message)
  | Return false => Return None
  end.

(** [on_connect]. *)
Definition on_connect (events : pyval) : result (option string) :=
  log_if events "connection"
    ("[" +:+ check_mark +:+ " CONNECTION] Connected to discord!").

(** [on_disconnect]. *)
Definition on_disconnect (events : pyval) : result (option string) :=
  log_if events "connection"
    ("[" +:+ cross_mark +:+ " CONNECTION] Disconnected from discord!").

(** The part the three command messages share. *)
Definition invocation (ctx : Context) (g : GuildRef) : string :=
  qualified_name ctx +:+ " in " +:+ channel ctx +:+ " (`"
  +:+ pretty (channel_id ctx) +:+ "`), in " +:+ guild_str g +:+ " (`"
  +:+ guild_id_str g +:+ "`) with " +:+ pretty (n_args ctx + n_kwargs ctx)%nat
  +:+ " arguments".

Definition who (ctx : Context) : string :=
  author ctx +:+ " (`" +:+ pretty (author_id ctx) +:+ "`)".

(** The guild the messages print, after [ensure_guild]. *)
Definition printed_guild (ctx : Context) (repr : string) : GuildRef :=
  default (DMChannelGuild repr) (guild ctx).

(** [on_command(ctx)]: the context afterwards, and the message logged. *)
Definition on_command (events : pyval) (ctx : Context) (repr : string)
    : Context * result (option string) :=
  let g := printed_guild ctx repr in
  (ensure_guild ctx repr,
   log_if events "commands"
     ("[" +:+ check_mark +:+ " COMMANDS] " +:+ who ctx
      +:+ " is running command " +:+ invocation ctx g
      +:+ " and permissions (for the author) `"
      +:+ pretty (author_permissions ctx) +:+ "` and (for the bot) `"
      +:+ pretty (bot_permissions ctx) +:+ "`.")).

(** [on_command_completion(ctx)]. *)
Definition on_command_completion (events : pyval) (ctx : Context)
    (repr : string) : Context * result (option string) :=
  let g := printed_guild ctx repr in
  (ensure_guild ctx repr,
   log_if events "commands"
     ("[" +:+ check_mark +:+ " COMMANDS] " +:+ who ctx
      +:+ " is finished running command " +:+ invocation ctx g +:+ ".")).

(** [_on_command_error(ctx, err)]. *)
Definition _on_command_error (events : pyval) (ctx : Context)
    (repr : string) (err : CommandError) : Context * result (option string) :=
  let g := printed_guild ctx repr in
  (ensure_guild ctx repr,
   log_if events "commands"
     ("[" +:+ cross_mark +:+ " COMMANDS] " +:+ who ctx
      +:+ " is finished running command " +:+ invocation ctx g
      +:+ ". However, there was an error:" +:+ newline +:+ "```py" +:+ newline
      +:+ class_name err +:+ ": " +:+ default (err_str err) (msg err)
      +:+ newline +:+ "```")).

(** [_on_ready]: the numbers of guilds, of distinct channels and of
    users. *)
Definition _on_ready (events : pyval) (guilds channels users : nat)
    : result (option string) :=
  log_if events "connection"
    ("[" +:+ check_mark +:+ " CONNECTION] Bot is now ready!" +:+ newline
     +:+ intcomma guilds +:+ " Guilds," +:+ intcomma channels
     +:+ " Channels," +:+ intcomma users +:+ " Users").

(** What the client library can call. *)
Inductive callback : Type :=
| Connect
| Disconnect
| Command (ctx : Context) (repr : string)
| CommandCompletion (ctx : Context) (repr : string)
| CommandErrorRaised (ctx : Context) (repr : string) (err : CommandError)
| Ready (guilds channels users : nat).

(** The handler of a callback: the context afterwards, for those that
    carry one, and the message logged. *)
Definition handle (events : pyval) (cb : callback)
    : option Context * result (option string) :=
  match cb with
  | Connect => (None, on_connect events)
  | Disconnect => (None, on_disconnect events)
  | Command ctx repr =>
      let '(ctx', r) := on_command events ctx repr in (Some ctx', r)
  | CommandCompletion ctx repr =>
      let '(ctx', r) := on_command_completion events ctx repr in (Some ctx', r)
  | CommandErrorRaised ctx repr err =>
      let '(ctx', r) := _on_command_error events ctx repr err in (Some ctx', r)
  | Ready guilds channels users =>
      (None, _on_ready events guilds channels users)
  end.

End Handlers.

End VerboseBotEvents.

(** * Properties *)

(** ** The queue worker *)

Module QOLBotSpec.
Import QOLBot.

(** The invariant of the bot under any schedule: the worker has not died,
    the trace is serial, finished, running and waiting jobs make up the
    enqueued ones in order, the counter of the queue agrees with the jobs not
    yet finished, and the log holds the entries of the failed jobs. *)
Definition consistent (b : bot) : Prop :=
  (forall e, worker b <> Crashed e) /\
  exists done,
    trace b = serial_trace done (running b) /\
    done ++ running b ++ items (queue b) = enqueued b /\
    unfinished_tasks (queue b)
      = Z.of_nat (length (running b ++ items (queue b))) /\
    stderr b = flat_map failure_log done.

Lemma serial_trace_snoc done j :
  serial_trace done [] ++ [Started j] = serial_trace done [j].
Proof. unfold serial_trace. simpl. by rewrite app_nil_r. Qed.

Lemma serial_trace_finish done j :
  serial_trace done [j] ++ [Finished j] = serial_trace (done ++ [j]) [].
Proof.
  unfold serial_trace. simpl.
  rewrite flat_map_app. simpl. rewrite !app_nil_r, <- app_assoc. done.
Qed.

Lemma awaited_serial q w err enq done cur :
  awaited (MkBot q w (serial_trace done cur) err enq) = done ++ cur.
Proof.
  unfold awaited, serial_trace. simpl. rewrite flat_map_app. f_equal.
  - induction done as [|j done IH]; simpl; [done | by rewrite IH].
  - induction cur as [|j cur IH]; simpl; [done | by rewrite IH].
Qed.

Lemma consistent_awaited b done :
  trace b = serial_trace done (running b) -> awaited b = done ++ running b.
Proof.
  destruct b as [q w tr err enq]. simpl. intros ->. apply awaited_serial.
Qed.

(** A worker that has just been started on a queue: it waits at [get], has
    run and logged nothing, and the queue holds the jobs put so far, all of
    them counted as unfinished. *)
Definition fresh (b : bot) : Prop :=
  worker b = AwaitingGet /\ trace b = [] /\ stderr b = [] /\
  enqueued b = items (queue b) /\
  unfinished_tasks (queue b) = Z.of_nat (length (items (queue b))).

(** A fresh worker on an empty queue with the bound [size]. *)
Definition idle (size : Z) : bot :=
  MkBot (new_queue size) AwaitingGet [] [] [].

(** What the worker writes to the error stream for [jobs]: for each job
    that raised, the line it prints and the traceback of the exception. *)
Definition logged (jobs : list job) : list stderr_entry :=
  flat_map (fun j =>
              match job_outcome j with
              | Returns => []
              | Raises e =>
                  [Line "(QOLBot Worker) Failed to do job ID '{}' - Skipping.";
                   Traceback e]
              end) jobs.

Lemma fresh_consistent b : fresh b -> consistent b.
Proof.
  intros (Hw & Htr & Herr & Henq & Hcnt).
  split; [by rewrite Hw |]. exists []. unfold running. rewrite Hw.
  by repeat split.
Qed.

Lemma idle_fresh size : fresh (idle size).
Proof. by repeat split. Qed.

Lemma logged_failure_log jobs : flat_map failure_log jobs = logged jobs.
Proof. done. Qed.

Lemma put_consistent b j : consistent b -> consistent (put b j).
Proof.
  intros [Halive (done & Htr & Henq & Hcnt & Herr)].
  unfold put, put_nowait. destruct (full (queue b)); [by split; eauto |].
  split; [done |]. exists done. unfold running in *. simpl.
  repeat split; try done.
  - rewrite <- Henq. by rewrite !app_assoc.
  - rewrite Hcnt, !length_app. simpl. lia.
Qed.

Lemma queue_worker_consistent b : consistent b -> consistent (queue_worker b).
Proof.
  intros [Halive (done & Htr & Henq & Hcnt & Herr)].
  unfold queue_worker. destruct b as [[size its cnt] w tr err enq].
  unfold running in *. simpl in *. destruct w as [|j|e].
  - unfold get. simpl. destruct its as [|j rest].
    + split; [done |]. exists done. by repeat split.
    + split; [done |]. exists done. simpl in *. repeat split; try done.
      rewrite Htr. apply serial_trace_snoc.
  - unfold task_done. simpl in *.
    destruct (decide (cnt <= 0)) as [Hle | _]; [lia |].
    split; [done |]. exists (done ++ [j]). simpl. repeat split.
    + rewrite Htr. apply serial_trace_finish.
    + rewrite <- Henq, <- app_assoc. done.
    + lia.
    + rewrite flat_map_app, Herr. simpl. by rewrite app_nil_r.
  - by destruct (Halive e).
Qed.

Lemma run_consistent evs b : consistent b -> consistent (run b evs).
Proof.
  revert b. induction evs as [|ev evs IH]; intros b Hb; [done |].
  apply IH. destruct ev; [by apply put_consistent | by apply queue_worker_consistent].
Qed.

Lemma run_app b evs1 evs2 : run b (evs1 ++ evs2) = run (run b evs1) evs2.
Proof. apply fold_left_app. Qed.

(** Resuming the worker never changes what was enqueued. *)
Lemma queue_worker_enqueued b : enqueued (queue_worker b) = enqueued b.
Proof.
  unfold queue_worker. destruct (worker b); [| |done].
  - by destruct (get (queue b)) as [[j q']|].
  - destruct (task_done (queue b)) as [q'|e]; [done | by destruct e].
Qed.

(** Once the worker is healthy, resuming it often enough leaves it idle on
    an empty queue. *)
Lemma resume_drains k : forall n b,
  consistent b -> length (items (queue b)) = k -> (2 * k + 1 <= n)%nat ->
  let b' := run b (repeat Resume n) in
  worker b' = AwaitingGet /\ items (queue b') = [] /\ enqueued b' = enqueued b.
Proof.
  induction k as [k IH] using lt_wf_ind. intros n b Hb Hk Hn.
  destruct n as [|n]; [lia |]. simpl.
  pose proof (queue_worker_consistent b Hb) as Hb1.
  pose proof (queue_worker_enqueued b) as Henq1.
  destruct Hb as [Halive (done & Htr & Henq & Hcnt & Herr)].
  destruct b as [[size its cnt] w tr err enq].
  unfold running in *. simpl in *. destruct w as [|j|e].
  - destruct its as [|j rest].
    + (* idle on an empty queue: every further resumption is void *)
      clear. induction n as [|n IHn]; [done |]. apply IHn.
    + destruct n as [|n]; [simpl in Hk; lia |].
      simpl in Hk. subst k.
      set (b1 := queue_worker (MkBot (MkQueue size (j :: rest) cnt)
                                     AwaitingGet tr err enq)) in *.
      pose proof (queue_worker_consistent b1 Hb1) as Hb2.
      pose proof (queue_worker_enqueued b1) as Henq2.
      change (run b1 (repeat Resume (S n)))
        with (run (queue_worker b1) (repeat Resume n)).
      destruct (IH (length rest) ltac:(lia) n (queue_worker b1) Hb2)
        as (Hw & Hit & He); [| lia |].
      * subst b1. unfold queue_worker, get, task_done. simpl.
        destruct (decide (cnt <= 0)); [simpl in Hcnt; lia | done].
      * repeat split; try done. rewrite He, Henq2. done.
  - set (b1 := queue_worker (MkBot (MkQueue size its cnt)
                                   (AwaitingJob j) tr err enq)) in *.
    assert (items (queue b1) = its) as Hits.
    { subst b1. unfold queue_worker, task_done. simpl.
      destruct (decide (cnt <= 0)); [simpl in Hcnt; lia | done]. }
    assert (worker b1 = AwaitingGet) as Hw1.
    { subst b1. unfold queue_worker, task_done. simpl.
      destruct (decide (cnt <= 0)); [simpl in Hcnt; lia | done]. }
    destruct its as [|j' rest].
    + assert (forall m, run b1 (repeat Resume m) = b1) as Hvoid.
      { induction m as [|m IHm]; [done |]. simpl.
        replace (queue_worker b1) with b1; [done |].
        unfold queue_worker, get. by rewrite Hw1, Hits. }
      rewrite Hvoid. done.
    + simpl in Hk. subst k.
      destruct n as [|n]; [lia |].
      set (b2 := queue_worker b1).
      pose proof (queue_worker_consistent b1 Hb1) as Hb2.
      change (run b1 (repeat Resume (S n)))
        with (run b2 (repeat Resume n)).
      assert (items (queue b2) = rest) as Hits2.
      { subst b2. unfold queue_worker, get. rewrite Hw1, Hits. done. }
      destruct (IH (length rest) ltac:(lia) n b2 Hb2)
        as (Hw & Hit & He); [by rewrite Hits2 | lia |].
      repeat split; try done.
      subst b2. rewrite He, !queue_worker_enqueued. done.
  - by destruct (Halive e).
Qed.

Lemma drain_spec b :
  consistent b ->
  let b' := run b (drain b) in
  consistent b' /\ worker b' = AwaitingGet /\ items (queue b') = [] /\
  enqueued b' = enqueued b.
Proof.
  intros Hb. split; [by apply run_consistent |].
  by apply (resume_drains (length (items (queue b)))).
Qed.

(** Three jobs, the second of which raises, put while the worker is already
    busy with the first. *)
Example three_jobs :
  let j1 := Job 1 Returns in
  let j2 := Job 2 (Raises (ValueError "boom")) in
  let j3 := Job 3 Returns in
  let b := run (idle 30) [Put j1; Resume; Put j2; Put j3; Resume; Resume;
                          Resume; Resume; Resume] in
  trace b = [Started j1; Finished j1; Started j2; Finished j2;
             Started j3; Finished j3] /\
  stderr b = [Line failure_message; Traceback (ValueError "boom")] /\
  worker b = AwaitingGet.
Proof. repeat split. Qed.

(** A full queue refuses the job: with a bound of one, the second job is
    never enqueued. *)
Example bounded_queue :
  let b := run (idle 1) [Put (Job 1 Returns); Put (Job 2 Returns)] in
  enqueued b = [Job 1 Returns].
Proof. reflexivity. Qed.

(** C1. The claim fails on the code: whatever the [max_queue_size] and
    whatever jobs a program goes on to put, constructing the bot raises
    [AttributeError] at [self.loop], so that no worker is started and no job
    is ever awaited. *)
Theorem constructed_bot_runs_no_job (max_queue_size : option Z)
    (evs : list event) :
  session max_queue_size evs
  = Raise (AttributeError "'QOLBot' object has no attribute 'loop'").
Proof. unfold session, init, loop_before_base_init. reflexivity. Qed.

(** C2. The claim fails on the code, by the same defect: the constructor
    raises [AttributeError] before it creates the worker task, so there is
    no worker to catch and log the failure of a job. *)
Theorem constructor_raises_AttributeError (max_queue_size : option Z) :
  init max_queue_size
  = Raise (AttributeError "'QOLBot' object has no attribute 'loop'").
Proof. unfold init, loop_before_base_init. reflexivity. Qed.

(** X1. The worker coroutine by itself keeps the order of the queue: from
    a freshly started worker, whatever is put and however the puts
    interleave with the worker, the trace is serial (each job finishes
    before the next starts), the jobs awaited so far followed by the jobs
    still queued are the jobs enqueued, and once the worker has been resumed
    often enough to empty the queue, the jobs it awaited are the jobs
    enqueued. *)
Theorem started_worker_runs_jobs_in_order (b : bot) (evs : list event) :
  fresh b ->
  let b' := run b evs in
  (exists done, trace b' = serial_trace done (running b')) /\
  awaited b' ++ items (queue b') = enqueued b' /\
  let b'' := run b' (drain b') in
  trace b'' = serial_trace (enqueued b') [] /\ awaited b'' = enqueued b'.
Proof.
  intros Hfresh b'.
  assert (consistent b') as Hb by by apply run_consistent, fresh_consistent.
  destruct (drain_spec b' Hb)
    as ([_ (done' & Htr' & Henq' & _) ] & Hw' & Hit' & He').
  destruct Hb as [_ (done & Htr & Henq & _)].
  split; [by exists done |]. split.
  - rewrite (consistent_awaited b' done Htr), <- app_assoc. done.
  - cbv zeta. unfold running in Htr', Henq'. rewrite Hw', Hit' in *.
    simpl in Henq'. rewrite app_nil_r in Henq'. rewrite He' in Henq'.
    subst done'. split; [done |].
    rewrite (consistent_awaited _ (enqueued b')).
    + unfold running. rewrite Hw'. apply app_nil_r.
    + unfold running. by rewrite Hw'.
Qed.

Lemma started_worker_runs_jobs_in_order_witness :
  awaited (run (idle 30) [Put (Job 1 Returns); Resume; Put (Job 2 Returns)])
  ++ items (queue (run (idle 30)
                       [Put (Job 1 Returns); Resume; Put (Job 2 Returns)]))
  = enqueued (run (idle 30)
                  [Put (Job 1 Returns); Resume; Put (Job 2 Returns)]).
Proof.
  apply (started_worker_runs_jobs_in_order (idle 30)
           [Put (Job 1 Returns); Resume; Put (Job 2 Returns)]).
  repeat split.
Defined.

(** X2. The worker coroutine by itself outlives the failures of its jobs:
    from a freshly started worker the task stays alive under every
    schedule, and once the queue is drained every enqueued job, also each
    one enqueued after a failing job, has been started and finished, the
    worker waits at [get], and the error stream holds, for each job that
    raised and in order, the line
    ["(QOLBot Worker) Failed to do job ID '{}' - Skipping."] followed by the
    traceback of its exception, and nothing else. *)
Theorem started_worker_logs_and_survives_failures (b : bot)
    (evs : list event) :
  fresh b ->
  let b' := run b evs in
  alive b' = true /\
  let b'' := run b' (drain b') in
  alive b'' = true /\ worker b'' = AwaitingGet /\
  trace b'' = serial_trace (enqueued b') [] /\
  stderr b'' = logged (enqueued b').
Proof.
  intros Hfresh b'.
  assert (consistent b') as Hb by by apply run_consistent, fresh_consistent.
  destruct (drain_spec b' Hb)
    as ([_ (done' & Htr' & Henq' & _ & Herr')] & Hw' & Hit' & He').
  destruct Hb as [Halive _]. split.
  - unfold alive. destruct (worker b') as [| |e]; try done.
    by destruct (Halive e).
  - cbv zeta. unfold running in Htr', Henq'. rewrite Hw', Hit' in *.
    simpl in Henq'. rewrite app_nil_r in Henq'. rewrite He' in Henq'.
    subst done'. unfold alive. rewrite Hw'.
    by rewrite <- logged_failure_log.
Qed.

Lemma started_worker_logs_and_survives_failures_witness :
  alive (run (idle 30) [Put (Job 1 (Raises (ValueError "boom"))); Resume;
                        Resume; Put (Job 2 Returns)]) = true.
Proof.
  apply (started_worker_logs_and_survives_failures (idle 30)
           [Put (Job 1 (Raises (ValueError "boom"))); Resume; Resume;
            Put (Job 2 Returns)]).
  repeat split.
Defined.

End QOLBotSpec.

(** ** textwrap.shorten fits its width *)

Module TextwrapSpec.
Import Textwrap.

Section Fits.

Variable split_chunks : string -> list string.
Variable blank : string -> bool.
Variable rstrip : string -> string.

Definition fits (width : nat) (line : string) : Prop :=
  (String.length line <= width)%nat.

Lemma length_append (s1 s2 : string) :
  String.length (s1 +:+ s2) = (String.length s1 + String.length s2)%nat.
Proof. induction s1 as [|c s1 IH]; simpl; [done | by rewrite IH]. Qed.

Lemma length_join parts : String.length (join parts) = total_len parts.
Proof.
  induction parts as [|p parts IH]; simpl; [done |].
  by rewrite length_append, IH.
Qed.

Lemma total_len_rev parts : total_len (rev parts) = total_len parts.
Proof.
  induction parts as [|p parts IH]; simpl; [done |].
  rewrite total_len_app, IH. simpl. lia.
Qed.

(** [cur_len] is the length of the line that [collect_line] hands over. *)
Lemma collect_line_len chunks lines width chunks' cur_line cur_len :
  collect_line blank chunks lines width = (chunks', cur_line, cur_len) ->
  cur_len = total_len cur_line.
Proof.
  unfold collect_line.
  destruct (fill_line _ [] 0%nat width) as [[chunks2 line2] len2] eqn:Hfill.
  apply fill_line_spec in Hfill as (taken & _ & Hline & Hlen & _).
  simpl in Hline, Hlen. subst line2 len2.
  set (cut := match chunks2 with [] => _ | _ :: _ => _ end).
  assert (cut.2 = total_len cut.1.2) as Hcut.
  { subst cut. destruct chunks2 as [|c rest]; [done |].
    destruct (width <? String.length c)%nat; [|done].
    by destruct (handle_long_word _ _ _ _) as [c3 l3]. }
  destruct cut as [[c3 l3] n3]. simpl in Hcut. subst n3.
  destruct (rev l3) as [|last before] eqn:Hrev; [by intros [= _ <- <-] |].
  destruct (blank last); [| by intros [= _ <- <-]].
  intros [= _ <- <-].
  rewrite <- (total_len_rev l3), Hrev, total_len_rev. simpl. lia.
Qed.

Lemma add_placeholder_fits rev_line : forall cur_len width line,
  cur_len = total_len rev_line ->
  add_placeholder blank rev_line cur_len width = Some line ->
  (String.length line <= width)%nat.
Proof.
  induction rev_line as [|last before IH]; intros cur_len width line Hlen; [done |].
  simpl. destruct (negb (blank last) && _) eqn:Hok.
  - apply andb_prop in Hok as [_ Hok]. apply Nat.leb_le in Hok.
    intros [= <-]. rewrite length_join, total_len_app, total_len_app, total_len_rev.
    simpl in *. lia.
  - apply IH. simpl in Hlen. lia.
Qed.

(** What the loop keeps true of its state: the lines written so far fit,
    and when a line has been written it is the only one and nothing but a
    blank chunk is left on the stack. *)
Definition wrapping (width : nat) (chunks lines : list string) : Prop :=
  Forall (fits width) lines /\
  (lines = [] \/
   (length lines = 1%nat /\
    (chunks = [] \/ exists c, chunks = [c] /\ blank c = true))).

Lemma wrap_pass_wrapping width chunks lines :
  (5 <= width)%nat -> chunks <> [] -> wrapping width chunks lines ->
  match wrap_pass blank rstrip chunks lines width with
  | inl (chunks', lines') => wrapping width chunks' lines'
  | inr lines' => Forall (fits width) lines' /\ (length lines' <= 1)%nat
  end.
Proof.
  intros Hw Hne [Hfit [-> | (Hone & [-> | (c & -> & Hc)])]]; [| done |].
  - unfold wrap_pass.
    destruct (collect_line blank chunks [] width) as [[c1 l1] n1] eqn:Hcol.
    apply collect_line_len in Hcol.
    destruct l1 as [|x l1]; [split; [done | by left] |].
    destruct (_ && (n1 <=? width)%nat) eqn:Hok.
    + apply andb_prop in Hok as [Hdrop Hn]. apply Nat.leb_le in Hn.
      split.
      * apply Forall_app. split; [done |]. apply Forall_singleton.
        unfold fits. rewrite length_join. lia.
      * right. split; [done |].
        destruct c1 as [|c [|c' c1]]; [by left | right; eauto | done].
    + destruct (add_placeholder _ _ _ _) as [line|] eqn:Hadd.
      * apply add_placeholder_fits in Hadd; [| by rewrite total_len_rev].
        split; [| simpl; lia]. by apply Forall_singleton.
      * simpl. split; [| simpl; lia]. apply Forall_singleton.
        unfold fits. simpl. lia.
  - unfold wrap_pass, collect_line. destruct lines as [|l ls]; [done |].
    rewrite Hc. simpl. split; [done |]. right. split; [done | by left].
Qed.

Lemma wrap_loop_fits width chunks lines :
  (5 <= width)%nat -> wrapping width chunks lines ->
  Forall (fits width) (wrap_loop blank rstrip chunks lines width) /\
  (length (wrap_loop blank rstrip chunks lines width) <= 1)%nat.
Proof.
  intros Hw. funelim (wrap_loop blank rstrip chunks lines width); intros Hinv.
  - destruct Hinv as [Hfit [-> | [Hone _]]]; (split; [done | simpl; lia]).
  - apply H; [done |].
    pose proof (wrap_pass_wrapping width (c :: cs) lines Hw ltac:(done) Hinv) as Hp.
    by rewrite Hpass in Hp.
  - pose proof (wrap_pass_wrapping width (c :: cs) lines Hw ltac:(done) Hinv) as Hp.
    by rewrite Hpass in Hp.
Qed.

(** Text without hyphens, already collapsed: the chunks are the words and
    the single spaces between them. *)
Fixpoint words_and_spaces (word text : string) : list string :=
  let flush := if String.eqb word "" then [] else [word] in
  match text with
  | EmptyString => flush
  | String c text' =>
      if Ascii.eqb c " "%char
      then flush ++ " " :: words_and_spaces "" text'
      else words_and_spaces (word +:+ String c "") text'
  end.

Example shorten_docstring :
  let shorten :=
    shorten (words_and_spaces "") (String.eqb " ") (fun s => s) in
  shorten "Hello world!" 12%nat = Return "Hello world!" /\
  shorten "Hello world!" 11%nat = Return "Hello [...]" /\
  shorten "Helloworld!" 8%nat = Return "[...]" /\
  shorten "Hello world!" 4%nat
  = Raise (ValueError "placeholder too large for max width").
Proof. repeat split. Qed.

(** With a width of five or more, [shorten] returns, and its result fits
    in the width. *)
Lemma shorten_fits text width :
  (5 <= width)%nat ->
  exists short,
    shorten split_chunks blank rstrip text width = Return short /\
    (String.length short <= width)%nat.
Proof.
  intros Hw. unfold shorten, wrap_chunks.
  destruct (width <=? 0)%nat eqn:H0; [apply Nat.leb_le in H0; lia |].
  destruct (width <? _)%nat eqn:H5; [apply Nat.ltb_lt in H5; simpl in H5; lia |].
  destruct (wrap_loop_fits width (split_chunks text) [] Hw) as [Hfit Hlen].
  { split; [done | by left]. }
  eexists. split; [done |].
  destruct (wrap_loop _ _ _ _ _) as [|l [|l' ls]]; simpl in *; [lia | | lia].
  apply Forall_inv in Hfit. exact Hfit.
Qed.

End Fits.

End TextwrapSpec.

(** ** VerboseBot *)

Module VerboseBotSpec.
Import VerboseBot.

(** [commands.Bot.__init__] as far as its arguments decide the outcome: it
    takes the command prefix, a help command and a description, by position
    or by keyword, must be given the prefix, and takes any further
    keyword. *)
Definition base_init (args : list pyval) (kwargs : gmap string pyval)
    : result unit :=
  match args, kwargs !! "command_prefix" with
  | [], None =>
      Raise (TypeError "missing 1 required positional argument: 'command_prefix'")
  | _ :: _, Some _ =>
      Raise (TypeError "got multiple values for argument 'command_prefix'")
  | _, _ =>
      if (3 <? length args)%nat
      then Raise (TypeError "takes from 2 to 4 positional arguments")
      else Return tt
  end.

(** A bot built with a command prefix and the empty string as channel id:
    the id is no integer, and the constructor takes it; no [TypeError] is
    raised and the bot is created. *)
Lemma falsy_channel_id_is_accepted :
  let kwargs : gmap string pyval := {["log_channel" := VStr ""]} in
  kwargs !! "log_channel" = Some (VStr "") /\
  isinstance_int (VStr "") = false /\
  init unit base_init [VStr "!"] kwargs
  = Return (MkBot unit (VStr "") LogEvents_default None tt
                  ["on_command_error"; "on_ready"] false ∅) /\
  ~ exists msg,
      init unit base_init [VStr "!"] kwargs = Raise (TypeError msg).
Proof. repeat split. intros [msg Hmsg]. discriminate Hmsg. Qed.

(** Without a command prefix it is the base class that raises. *)
Example prefix_is_required :
  init unit base_init [] {["log_channel" := VStr ""]}
  = Raise (TypeError "missing 1 required positional argument: 'command_prefix'").
Proof. reflexivity. Qed.

Section Construction.

Variable Base : Type.
Variable super_init : list pyval -> gmap string pyval -> result Base.

(** C6, amended. Whatever the base class does with the remaining
    arguments, the constructor raises [TypeError] before initialising it
    when the [log_channel] keyword holds a value that is true and not an
    integer, or the [log_events] keyword holds a value that is neither a
    dictionary nor a [LogEvents]. *)
Theorem init_rejects_malformed_logging_config
    (args : list pyval) (kwargs : gmap string pyval) :
  (exists v, kwargs !! "log_channel" = Some v /\
             truthy v = true /\ isinstance_int v = false) \/
  (exists w, kwargs !! "log_events" = Some w /\ isinstance_dict w = false) ->
  exists msg, init Base super_init args kwargs = Raise (TypeError msg).
Proof.
  intros [(v & Hv & Ht & Hi) | (w & Hw & Hd)]; unfold init.
  - rewrite Hv. simpl. rewrite Ht, Hi. simpl. eauto.
  - destruct (truthy _ && negb _); [eauto |].
    rewrite lookup_delete_ne by done. rewrite Hw. simpl. rewrite Hd. simpl.
    eauto.
Qed.

(** A well-formed configuration reaches the base class: its constructor
    decides the outcome, and the two keywords are not passed on. *)
Lemma init_accepts (args : list pyval) (kwargs : gmap string pyval)
    (id : Z) (flags : list (string * pyval)) :
  kwargs !! "log_channel" = Some (VInt id) ->
  kwargs !! "log_events" = Some (VDict flags) ->
  init Base super_init args kwargs
  = match super_init args (delete "log_events" (delete "log_channel" kwargs))
    with
    | Raise e => Raise e
    | Return b =>
        Return (MkBot Base (VInt id) (VDict flags) None b
                      ["on_command_error"; "on_ready"] false ∅)
    end.
Proof.
  intros Hc He. unfold init. rewrite Hc. simpl.
  rewrite andb_false_r, lookup_delete_ne by done. rewrite He. done.
Qed.

End Construction.

Lemma init_rejects_malformed_logging_config_witness :
  exists msg,
    init unit base_init [VStr "!"] {["log_channel" := VStr "general"]}
    = Raise (TypeError msg).
Proof.
  apply (init_rejects_malformed_logging_config unit base_init [VStr "!"]
           {["log_channel" := VStr "general"]}).
  left. exists (VStr "general"). repeat split.
Defined.

Section Logging.

Variable Base : Type.
Variable shorten : string -> nat -> result string.

Lemma random_choice_in (rnd : nat) (w : Webhook) (ws : list Webhook) :
  random_choice rnd w ws ∈ w :: ws.
Proof.
  unfold random_choice. apply list_elem_of_In, nth_In.
  change (length (w :: ws)) with (S (length ws)).
  apply Nat.mod_upper_bound. lia.
Qed.

(** With a channel in the cache, [_log_bg] is [deliver] on that channel. *)
Lemma log_bg_resolved (b : bot Base) (ch : TextChannel) (message : string)
    (shorten_if_needed : bool) (rnd : nat) :
  _log_channel Base b = Some ch ->
  _log_bg Base shorten b message shorten_if_needed rnd
  = (b, (deliver shorten ch message shorten_if_needed rnd).1,
        (deliver shorten ch message shorten_if_needed rnd).2).
Proof.
  intros Hch. unfold _log_bg, resolve_channel. rewrite Hch. simpl.
  rewrite Hch. by destruct (deliver _ _ _ _ _).
Qed.

(** C7. With a resolved log channel and [text] the text to send: when the
    bot may manage webhooks the text goes out once through a webhook and
    never as a channel message, whatever the send-messages permission says;
    the webhook is created under the name "VerboseBot Logging" when the
    channel has none, and is one of the channel's own otherwise.  When the
    bot may not manage webhooks but may send messages, the text goes out as
    one message to the channel. *)
Theorem log_prefers_webhook (b : bot Base) (ch : TextChannel)
    (message : string) (shorten_if_needed : bool) (rnd : nat) (text : string) :
  _log_channel Base b = Some ch ->
  outgoing shorten message shorten_if_needed = Return text ->
  let out := _log_bg Base shorten b message shorten_if_needed rnd in
  let effs := out.1.2 in
  out.2 = Return tt /\
  (manage_webhooks (permissions_for_me ch) = true ->
   List.filter is_channel_send effs = [] /\
   exists via,
     List.filter is_webhook_send effs = [WebhookSend via text] /\
     match webhooks ch with
     | [] =>
         via = Created "VerboseBot Logging" /\
         CreateWebhook (channel_id ch) "VerboseBot Logging" ∈ effs
     | _ :: _ => exists w, via = Existing w /\ w ∈ webhooks ch
     end) /\
  (manage_webhooks (permissions_for_me ch) = false ->
   send_messages (permissions_for_me ch) = true ->
   effs = [ChannelSend (channel_id ch) text; Print message]).
Proof.
  intros Hch Hout. cbv zeta. rewrite (log_bg_resolved b ch) by done.
  unfold deliver. rewrite Hout. simpl.
  destruct (manage_webhooks (permissions_for_me ch)).
  - destruct (webhooks ch) as [|w ws] eqn:Hws; simpl.
    + split; [done |]. split; [| done]. intros _. split; [done |].
      eexists. split; [done |]. split; [done |]. set_solver.
    + split; [done |]. split; [| done]. intros _. split; [done |].
      eexists. split; [done |]. eexists. split; [done |].
      apply random_choice_in.
  - destruct (send_messages (permissions_for_me ch)); simpl.
    + split; [done |]. split; [done |]. done.
    + split; [done |]. split; done.
Qed.

End Logging.

(** A bot that may do both, on a channel without webhooks. *)
Definition both_allowed : TextChannel :=
  MkTextChannel 7 (MkPermissions true true) [].

Lemma log_prefers_webhook_witness :
  List.filter is_channel_send
    (_log_bg unit (fun s _ => Return s)
       (MkBot unit (VInt 7) LogEvents_default (Some both_allowed) tt [] true ∅)
       "hello" true 0).1.2 = [].
Proof.
  apply (log_prefers_webhook unit (fun s _ => Return s)
           (MkBot unit (VInt 7) LogEvents_default (Some both_allowed) tt []
                  true ∅)
           both_allowed "hello" true 0 "hello" eq_refl eq_refl).
  reflexivity.
Defined.

Section Shortening.

Variable Base : Type.
Variable split_chunks : string -> list string.
Variable blank : string -> bool.
Variable rstrip : string -> string.

(** C9. With [shorten_if_needed] left true, whatever [_log_bg] delivers
    through the webhook or to the channel is at most 2000 characters long:
    it is the message itself when the message has at most 2000 characters,
    and otherwise what [shorten(message, 2000)] returns, which fits in
    2000.  The routine delivers that one text or nothing. *)
Theorem logged_text_fits (b : bot Base) (message : string) (rnd : nat) :
  let shorten := Textwrap.shorten split_chunks blank rstrip in
  let out := _log_bg Base shorten b message true rnd in
  exists text : string,
    (if (2000 <? String.length message)%nat
     then shorten message 2000%nat else Return message) = Return text /\
    (String.length text <= 2000)%nat /\
    (delivered out.1.2 = [text] \/ delivered out.1.2 = []).
Proof.
  cbv zeta.
  assert (exists text,
    outgoing (Textwrap.shorten split_chunks blank rstrip) message true
      = Return text /\ (String.length text <= 2000)%nat) as (text & Hout & Hlen).
  { unfold outgoing. simpl.
    destruct (2000 <? String.length message)%nat eqn:Hlong.
    - apply TextwrapSpec.shorten_fits. lia.
    - apply Nat.ltb_ge in Hlong. eauto. }
  assert (forall ch,
    delivered
      (deliver (Textwrap.shorten split_chunks blank rstrip) ch message true
               rnd).1 = [text] \/
    delivered
      (deliver (Textwrap.shorten split_chunks blank rstrip) ch message true
               rnd).1 = []) as Hdeliver.
  { intros ch. unfold deliver. rewrite Hout.
    destruct (manage_webhooks _); [destruct (webhooks ch); simpl; auto |].
    destruct (send_messages _); simpl; auto. }
  exists text. split; [exact Hout |]. split; [done |].
  unfold _log_bg, resolve_channel.
  destruct (_log_channel Base b) as [ch|] eqn:Hch; simpl.
  - rewrite Hch. specialize (Hdeliver ch).
    by destruct (deliver _ ch message true rnd) as [effs r].
  - assert (forall waited : list effect,
              waited = [] \/ waited = [WaitUntilReady] ->
              forall effs, delivered (waited ++ effs) = delivered effs)
      as Hwaited.
    { by intros waited [-> | ->] effs. }
    assert (forall waited : list effect,
              waited = [] \/ waited = [WaitUntilReady] ->
              delivered waited = []) as Hnone.
    { by intros waited [-> | ->]. }
    assert ((if is_ready Base b then [] else [WaitUntilReady])
            = [] \/
            (if is_ready Base b then [] else [WaitUntilReady])
            = [WaitUntilReady]) as Hw by (destruct (is_ready Base b); auto).
    destruct (get_channel Base b (_logging_channel_id Base b))
      as [[ch|]|e]; simpl.
    + specialize (Hdeliver ch).
      destruct (deliver _ ch message true rnd) as [effs r]. simpl in *.
      by rewrite Hwaited.
    + right. by apply Hnone.
    + right. by apply Hnone.
Qed.

End Shortening.

End VerboseBotSpec.

(** ** The message-or-reaction race *)

Module ExtSpec.
Import Ext.

(** A call with a timeout of zero, answered by a matching message after a
    minute: nothing matches within zero seconds, yet the helper returns the
    value paired with the reply instead of raising [TimeoutError]. *)
Lemma zero_timeout_still_waits :
  let ctx := MkContext 1 2 3 in
  let pairs : gmap string string := {["yes" := "+1"]} in
  let tl : timeline := [(60%Q, OnMessage (MkMessage 4 "Yes" 1 2))] in
  seconds (TInt 0) = Some 0%Q /\
  (forall t ev, (t, ev) ∈ tl -> ~ (t < 0)%Q) /\
  wf_msg_or_reaction ascii_lower ctx (TInt 0) [] None pairs tl true
  = ([ReactionTask], Return (PairValue "+1")).
Proof.
  repeat split.
  intros t ev Hin Hlt. apply list_elem_of_singleton in Hin.
  injection Hin as -> _. unfold Qlt in Hlt. simpl in Hlt. lia.
Qed.

Example lower_yes : ascii_lower "YeS, Please!" = "yes, please!".
Proof. reflexivity. Qed.

Section Race.

Variable lower : string -> string.

Lemma in_values_spec (pairs : gmap string string) (v : string) :
  in_values pairs v = true <-> exists k, pairs !! k = Some v.
Proof.
  unfold in_values. rewrite existsb_exists. split.
  - intros ([k v'] & Hin & Heq). simpl in Heq.
    apply String.eqb_eq in Heq as ->. exists k.
    by apply elem_of_map_to_list, list_elem_of_In.
  - intros [k Hk]. exists (k, v). split.
    + by apply list_elem_of_In, elem_of_map_to_list.
    + apply String.eqb_refl.
Qed.

(** The default reaction check, spelled out. *)
Lemma reaction_check_spec ctx pairs message r u :
  reaction_check ctx pairs message r u = true <->
  (exists k, pairs !! k = Some (str_emoji (emoji r))) /\
  u = ctx_author ctx /\ reaction_message r = message.
Proof.
  unfold reaction_check. rewrite <- in_values_spec.
  destruct (in_values pairs _); [| by intuition].
  destruct (u =? ctx_author ctx) eqn:Hu;
    [apply Z.eqb_eq in Hu | apply Z.eqb_neq in Hu; by intuition].
  destruct (reaction_message r =? message) eqn:Hm;
    [apply Z.eqb_eq in Hm | apply Z.eqb_neq in Hm]; by intuition.
Qed.

(** The default message check, spelled out. *)
Lemma message_check_spec ctx pairs m :
  message_check lower ctx pairs m = true <->
  content m <> "" /\ is_Some (pairs !! lower (content m)) /\
  author m = ctx_author ctx /\ channel m = ctx_channel ctx.
Proof.
  unfold message_check. rewrite !andb_true_iff, negb_true_iff.
  rewrite String.eqb_neq, bool_decide_eq_true, !Z.eqb_eq. tauto.
Qed.

Definition no_message_resolves (check : Message -> result bool) (d : Q)
    (tl : timeline) : Prop :=
  forall t m, (t, OnMessage m) ∈ tl -> (t < d)%Q -> check m = Return false.

Definition no_reaction_resolves (check : Reaction -> Z -> result bool)
    (d : Q) (tl : timeline) : Prop :=
  forall t r u,
    (t, OnReactionAdd r u) ∈ tl -> (t < d)%Q -> check r u = Return false.

Lemma in_time_late d t r :
  ~ (t < d)%Q -> in_time d (Some (t, r)) = None.
Proof.
  intros Hlate. unfold in_time.
  destruct (Qle_bool d t) eqn:Hle; [done |].
  exfalso. apply Hlate. apply Qnot_le_lt. intros Hdt.
  apply Qle_bool_iff in Hdt. congruence.
Qed.

Lemma in_time_early d t r :
  (t < d)%Q -> in_time d (Some (t, r)) = Some (t, r).
Proof.
  intros Hlt. unfold in_time.
  destruct (Qle_bool d t) eqn:Hle; [| done].
  apply Qle_bool_iff in Hle. by apply Qlt_not_le in Hlt.
Qed.

Lemma wait_for_message_pending check d tl :
  no_message_resolves check d tl ->
  in_time d (wait_for_message check tl) = None.
Proof.
  induction tl as [|[t ev] tl IH]; intros Hno; [done |].
  assert (no_message_resolves check d tl) as Htl.
  { intros t' m Hin. apply Hno. by right. }
  destruct ev as [m | r u]; simpl; [| by apply IH].
  destruct (Qlt_le_dec t d) as [Hlt | Hge].
  - rewrite (Hno t m); [by apply IH | by left | done].
  - destruct (check m) as [[|]|e]; [| by apply IH |];
      apply in_time_late; by apply Qle_not_lt.
Qed.

Lemma wait_for_reaction_pending check d tl :
  no_reaction_resolves check d tl ->
  in_time d (wait_for_reaction check tl) = None.
Proof.
  induction tl as [|[t ev] tl IH]; intros Hno; [done |].
  assert (no_reaction_resolves check d tl) as Htl.
  { intros t' r u Hin. apply Hno. by right. }
  destruct ev as [m | r u]; simpl; [by apply IH |].
  destruct (Qlt_le_dec t d) as [Hlt | Hge].
  - rewrite (Hno t r u); [by apply IH | by left | done].
  - destruct (check r u) as [[|]|e]; [| by apply IH |];
      apply in_time_late; by apply Qle_not_lt.
Qed.

(** C3, amended. When the checks are the defaults, or a list supplying
    both, and neither wait resolves before the effective timeout (the
    supplied timeout when it is true, 120 seconds otherwise): no message
    and no reaction stamped below it makes its check answer true or raise,
    then the helper cancels both waits and raises [TimeoutError]. *)
Theorem timeout_raised_when_nothing_resolves
    (ctx : Context) (timeout : timeout_arg) (checks : list custom_check)
    (message : option Z) (pairs : gmap string string) (tl : timeline)
    (message_first : bool) check0 check1 :
  select_checks lower ctx pairs (default (ctx_message ctx) message) checks
    = Return (check0, check1) ->
  no_message_resolves check0 (effective_timeout timeout) tl ->
  no_reaction_resolves check1 (effective_timeout timeout) tl ->
  wf_msg_or_reaction lower ctx timeout checks message pairs tl message_first
  = ([MessageTask; ReactionTask], Raise TimeoutError).
Proof.
  intros Hsel Hm Hr. unfold wf_msg_or_reaction. rewrite Hsel.
  unfold wait. rewrite (wait_for_message_pending _ _ _ Hm).
  rewrite (wait_for_reaction_pending _ _ _ Hr). done.
Qed.

(** The wait for a message resolves at the first message its check
    accepts. *)
Lemma wait_for_message_first check before t m after :
  (forall t' m', (t', OnMessage m') ∈ before -> check m' = Return false) ->
  check m = Return true ->
  wait_for_message check (before ++ (t, OnMessage m) :: after)
  = Some (t, Return (GotMessage m)).
Proof.
  intros Hbefore Hm. induction before as [|[t' ev] before IH]; simpl.
  - by rewrite Hm.
  - assert (forall t'' m', (t'', OnMessage m') ∈ before ->
                           check m' = Return false) as Hrest.
    { intros t'' m' Hin. apply (Hbefore t''). by right. }
    destruct ev as [m' | r u]; [| by apply IH].
    rewrite (Hbefore t' m') by by left. by apply IH.
Qed.

Lemma wait_for_reaction_first check before t r u after :
  (forall t' r' u',
     (t', OnReactionAdd r' u') ∈ before -> check r' u' = Return false) ->
  check r u = Return true ->
  wait_for_reaction check (before ++ (t, OnReactionAdd r u) :: after)
  = Some (t, Return (GotReaction r u)).
Proof.
  intros Hbefore Hr. induction before as [|[t' ev] before IH]; simpl.
  - by rewrite Hr.
  - assert (forall t'' r' u', (t'', OnReactionAdd r' u') ∈ before ->
                              check r' u' = Return false) as Hrest.
    { intros t'' r' u' Hin. apply (Hbefore t''). by right. }
    destruct ev as [m | r' u']; [by apply IH |].
    rewrite (Hbefore t' r' u') by by left. by apply IH.
Qed.

(** A wait under a check that never raises resolves, if at all, at an
    event of the timeline that the check accepts. *)
Lemma wait_for_message_found (check : Message -> bool) tl t res :
  wait_for_message (fun m => Return (check m)) tl = Some (t, res) ->
  exists m, (t, OnMessage m) ∈ tl /\ check m = true.
Proof.
  induction tl as [|[t' ev] tl IH]; simpl; [done |].
  destruct ev as [m | r u].
  - destruct (check m) eqn:Hm.
    + intros [= -> _]. exists m. split; [by left | done].
    + intros Hrec. destruct (IH Hrec) as (m' & Hin & Hok).
      exists m'. split; [by right | done].
  - intros Hrec. destruct (IH Hrec) as (m' & Hin & Hok).
    exists m'. split; [by right | done].
Qed.

Lemma wait_for_reaction_found (check : Reaction -> Z -> bool) tl t res :
  wait_for_reaction (fun r u => Return (check r u)) tl = Some (t, res) ->
  exists r u, (t, OnReactionAdd r u) ∈ tl /\ check r u = true.
Proof.
  induction tl as [|[t' ev] tl IH]; simpl; [done |].
  destruct ev as [m | r u].
  - intros Hrec. destruct (IH Hrec) as (r' & u' & Hin & Hok).
    exists r', u'. split; [by right | done].
  - destruct (check r u) eqn:Hr.
    + intros [= -> _]. exists r, u. split; [by left | done].
    + intros Hrec. destruct (IH Hrec) as (r' & u' & Hin & Hok).
      exists r', u'. split; [by right | done].
Qed.

(** [asyncio.wait] hands back the message task alone when it resolved in
    time and before the reaction task. *)
Lemma wait_message_only d t rm reaction :
  (t < d)%Q ->
  (forall t' rr, reaction = Some (t', rr) -> (t < t')%Q) ->
  wait d (Some (t, rm)) reaction = [(MessageTask, rm)].
Proof.
  intros Hlt Hlater. unfold wait. rewrite (in_time_early d t rm Hlt).
  destruct reaction as [[t' rr]|]; [| done].
  specialize (Hlater t' rr eq_refl). simpl.
  destruct (Qle_bool d t'); [done |].
  destruct (Qeq_bool t t') eqn:Heq.
  - apply Qeq_bool_iff in Heq. by apply Qlt_not_eq in Hlater.
  - destruct (Qle_bool t t') eqn:Hle; [done |].
    apply Qlt_le_weak, Qle_bool_iff in Hlater. congruence.
Qed.

Lemma wait_reaction_only d t rr msg :
  (t < d)%Q ->
  (forall t' rm, msg = Some (t', rm) -> (t < t')%Q) ->
  wait d msg (Some (t, rr)) = [(ReactionTask, rr)].
Proof.
  intros Hlt Hlater. unfold wait. rewrite (in_time_early d t rr Hlt).
  destruct msg as [[t' rm]|]; [| done].
  specialize (Hlater t' rm eq_refl). simpl.
  destruct (Qle_bool d t'); [done |].
  destruct (Qeq_bool t' t) eqn:Heq.
  - apply Qeq_bool_iff in Heq. symmetry in Heq. by apply Qlt_not_eq in Hlater.
  - destruct (Qle_bool t' t) eqn:Hle; [| done].
    apply Qle_bool_iff in Hle. by apply Qlt_not_le in Hlater.
Qed.

(** C4. Under the default checks, let [m] be the first message that passes
    the message check: its content is not empty, its lowered content is a
    key of [pairs], it comes from the author and the channel of the context.
    When it arrives before the effective timeout, and every reaction that
    passes the reaction check is stamped later, the helper cancels the
    reaction wait and returns [pairs[content.lower()]]. *)
Theorem message_reply_returns_its_pair
    (ctx : Context) (timeout : timeout_arg) (message : option Z)
    (pairs : gmap string string) (before after : timeline) (t : Q)
    (m : Message) (v : string) (message_first : bool) :
  let tl := before ++ (t, OnMessage m) :: after in
  content m <> "" ->
  pairs !! lower (content m) = Some v ->
  author m = ctx_author ctx ->
  channel m = ctx_channel ctx ->
  (forall t' m',
     (t', OnMessage m') ∈ before -> message_check lower ctx pairs m' = false) ->
  (forall t' r u,
     (t', OnReactionAdd r u) ∈ tl ->
     reaction_check ctx pairs (default (ctx_message ctx) message) r u = true ->
     (t < t')%Q) ->
  (t < effective_timeout timeout)%Q ->
  wf_msg_or_reaction lower ctx timeout [] message pairs tl message_first
  = ([ReactionTask], Return (PairValue v)).
Proof.
  intros tl Hcontent Hv Hauthor Hchannel Hbefore Hreactions Hlt.
  assert (message_check lower ctx pairs m = true) as Hm.
  { apply message_check_spec. rewrite Hv. eauto. }
  unfold wf_msg_or_reaction. simpl. subst tl.
  rewrite (wait_for_message_first
             (fun m => Return (message_check lower ctx pairs m))).
  - rewrite wait_message_only; [simpl; by rewrite Hv | done |].
    intros t' rr Hres. apply wait_for_reaction_found in Hres as (r & u & Hin & Hok).
    by apply (Hreactions t' r u).
  - intros t' m' Hin. by rewrite (Hbefore t' m').
  - by rewrite Hm.
Qed.

(** C5. Under the default checks, let [r], added by [u], be the first
    reaction that passes the reaction check: the text of its emoji is a value
    of [pairs], [u] is the author of the context, and it sits on the message
    listened for.  When it arrives before the effective timeout, and every
    message that passes the message check is stamped later, the helper
    cancels the message wait and returns the emoji of [r]. *)
Theorem reaction_returns_its_emoji
    (ctx : Context) (timeout : timeout_arg) (message : option Z)
    (pairs : gmap string string) (before after : timeline) (t : Q)
    (r : Reaction) (u : Z) (message_first : bool) :
  let tl := before ++ (t, OnReactionAdd r u) :: after in
  let listened := default (ctx_message ctx) message in
  (exists k, pairs !! k = Some (str_emoji (emoji r))) ->
  u = ctx_author ctx ->
  reaction_message r = listened ->
  (forall t' r' u',
     (t', OnReactionAdd r' u') ∈ before ->
     reaction_check ctx pairs listened r' u' = false) ->
  (forall t' m,
     (t', OnMessage m) ∈ tl -> message_check lower ctx pairs m = true ->
     (t < t')%Q) ->
  (t < effective_timeout timeout)%Q ->
  wf_msg_or_reaction lower ctx timeout [] message pairs tl message_first
  = ([MessageTask], Return (ReactionEmoji (emoji r))).
Proof.
  intros tl listened Hvalue Hu Hon Hbefore Hmessages Hlt.
  assert (reaction_check ctx pairs listened r u = true) as Hr.
  { by apply reaction_check_spec. }
  unfold wf_msg_or_reaction. simpl. subst tl. fold listened.
  rewrite (wait_for_reaction_first
             (fun r u => Return (reaction_check ctx pairs listened r u))).
  - rewrite wait_reaction_only; [done | done |].
    intros t' rm Hres. apply wait_for_message_found in Hres as (m & Hin & Hok).
    by apply (Hmessages t' m).
  - intros t' r' u' Hin. by rewrite (Hbefore t' r' u').
  - by rewrite Hr.
Qed.

(** C10. A timeout that is false ([None], 0 or 0.0) is replaced by 120
    seconds, and the call behaves as with a timeout of 120.0.  In
    particular it does not time out at once: under the default checks a
    first matching message that arrives at any time before 120 seconds, and
    before every matching reaction, is answered with its pair; and
    [TimeoutError] is raised when neither wait resolves before 120
    seconds. *)
Theorem falsy_timeout_waits_120_seconds
    (ctx : Context) (timeout : timeout_arg) (message : option Z)
    (pairs : gmap string string) (message_first : bool) :
  timeout_truthy timeout = false ->
  effective_timeout timeout = 120%Q /\
  (forall checks tl,
     wf_msg_or_reaction lower ctx timeout checks message pairs tl
       message_first
     = wf_msg_or_reaction lower ctx (TFloat 120) checks message pairs tl
         message_first) /\
  (forall before after t m v,
     let tl := before ++ (t, OnMessage m) :: after in
     message_check lower ctx pairs m = true ->
     pairs !! lower (content m) = Some v ->
     (forall t' m',
        (t', OnMessage m') ∈ before ->
        message_check lower ctx pairs m' = false) ->
     (forall t' r u,
        (t', OnReactionAdd r u) ∈ tl ->
        reaction_check ctx pairs (default (ctx_message ctx) message) r u
        = true ->
        (t < t')%Q) ->
     (t < 120)%Q ->
     wf_msg_or_reaction lower ctx timeout [] message pairs tl message_first
     = ([ReactionTask], Return (PairValue v))) /\
  (forall checks check0 check1 tl,
     select_checks lower ctx pairs (default (ctx_message ctx) message) checks
     = Return (check0, check1) ->
     no_message_resolves check0 120 tl ->
     no_reaction_resolves check1 120 tl ->
     wf_msg_or_reaction lower ctx timeout checks message pairs tl
       message_first
     = ([MessageTask; ReactionTask], Raise TimeoutError)).
Proof.
  intros Hfalsy.
  assert (effective_timeout timeout = 120%Q) as Heff.
  { destruct timeout; simpl in *; [done | by rewrite Hfalsy | by rewrite Hfalsy]. }
  split; [done |]. split; [| split].
  - intros checks tl. unfold wf_msg_or_reaction. by rewrite Heff.
  - intros before after t m v tl Hm Hv Hbefore Hreactions Hlt.
    unfold wf_msg_or_reaction. simpl. rewrite Heff. subst tl.
    rewrite (wait_for_message_first
               (fun m => Return (message_check lower ctx pairs m))).
    + rewrite wait_message_only; [simpl; by rewrite Hv | done |].
      intros t' rr Hres.
      apply wait_for_reaction_found in Hres as (r & u & Hin & Hok).
      by apply (Hreactions t' r u).
    + intros t' m' Hin. by rewrite (Hbefore t' m').
    + by rewrite Hm.
  - intros checks check0 check1 tl Hsel Hnom Hnor.
    unfold wf_msg_or_reaction. rewrite Hsel, Heff. unfold wait.
    rewrite (wait_for_message_pending _ _ _ Hnom).
    rewrite (wait_for_reaction_pending _ _ _ Hnor). done.
Qed.

End Race.

Lemma timeout_raised_when_nothing_resolves_witness :
  wf_msg_or_reaction ascii_lower (MkContext 1 2 3) (TFloat 30) [] None
    {["yes" := "+1"]} [(60%Q, OnMessage (MkMessage 4 "yes" 1 2))] true
  = ([MessageTask; ReactionTask], Raise TimeoutError).
Proof.
  eapply (timeout_raised_when_nothing_resolves ascii_lower).
  - reflexivity.
  - intros t m Hin Hlt. apply list_elem_of_singleton in Hin.
    injection Hin as -> _. unfold Qlt in Hlt. simpl in Hlt. lia.
  - intros t r u Hin Hlt. apply list_elem_of_singleton in Hin.
    discriminate Hin.
Defined.

(** Membership in a short literal timeline, split into its cases. *)
Ltac timeline_cases H :=
  repeat (apply elem_of_cons in H as [H | H]);
  [.. | by apply elem_of_nil in H].

Lemma message_reply_returns_its_pair_witness :
  wf_msg_or_reaction ascii_lower (MkContext 1 2 3) TNone [] None
    {["yes" := "+1"]}
    ([(5%Q, OnMessage (MkMessage 9 "maybe" 1 2))]
     ++ (10%Q, OnMessage (MkMessage 4 "YES" 1 2))
     :: [(20%Q, OnReactionAdd (MkReaction (UnicodeEmoji "+1") 3) 1)])
    true
  = ([ReactionTask], Return (PairValue "+1")).
Proof.
  apply (message_reply_returns_its_pair ascii_lower (MkContext 1 2 3) TNone
           None {["yes" := "+1"]}); try reflexivity.
  - discriminate.
  - intros t' m' Hin. timeline_cases Hin. by injection Hin as _ ->.
  - intros t' r u Hin _. timeline_cases Hin; try discriminate Hin.
    by injection Hin as -> _ _.
Defined.

Lemma reaction_returns_its_emoji_witness :
  wf_msg_or_reaction ascii_lower (MkContext 1 2 3) (TFloat 30) [] None
    {["yes" := "+1"]}
    ([(5%Q, OnReactionAdd (MkReaction (UnicodeEmoji "+1") 8) 1)]
     ++ (10%Q, OnReactionAdd (MkReaction (UnicodeEmoji "+1") 3) 1)
     :: [(20%Q, OnMessage (MkMessage 4 "yes" 1 2))])
    true
  = ([MessageTask], Return (ReactionEmoji (UnicodeEmoji "+1"))).
Proof.
  apply (reaction_returns_its_emoji ascii_lower (MkContext 1 2 3) (TFloat 30)
           None {["yes" := "+1"]}
           [(5%Q, OnReactionAdd (MkReaction (UnicodeEmoji "+1") 8) 1)]
           [(20%Q, OnMessage (MkMessage 4 "yes" 1 2))]
           10%Q (MkReaction (UnicodeEmoji "+1") 3) 1); try reflexivity.
  - by exists "yes".
  - intros t' r' u' Hin. timeline_cases Hin. by injection Hin as _ -> ->.
  - intros t' m Hin _. timeline_cases Hin; try discriminate Hin.
    by injection Hin as -> _.
Defined.

Lemma falsy_timeout_waits_120_seconds_witness :
  wf_msg_or_reaction ascii_lower (MkContext 1 2 3) (TInt 0) [] None
    {["yes" := "+1"]}
    ([] ++ (119%Q, OnMessage (MkMessage 4 "yes" 1 2)) :: []) true
  = ([ReactionTask], Return (PairValue "+1")).
Proof.
  destruct (falsy_timeout_waits_120_seconds ascii_lower (MkContext 1 2 3)
              (TInt 0) None {["yes" := "+1"]} true eq_refl)
    as (_ & _ & Hreply & _).
  apply Hreply; try reflexivity.
  - intros t' m' Hin. by apply elem_of_nil in Hin.
  - intros t' r u Hin _. apply list_elem_of_singleton in Hin.
    discriminate Hin.
Defined.

(** A timeout of zero, [None] or [0.0] answered after a minute: the reply
    is still taken. *)
Example zero_timeout_reply :
  forall timeout, In timeout [TInt 0; TNone; TFloat 0] ->
  wf_msg_or_reaction ascii_lower (MkContext 1 2 3) timeout [] None
    {["yes" := "+1"]} [(60%Q, OnMessage (MkMessage 4 "yes" 1 2))] true
  = ([ReactionTask], Return (PairValue "+1")).
Proof. intros timeout [<- | [<- | [<- | []]]]; reflexivity. Qed.

(** Two waits resolving in the same pass of the loop: both tasks are done,
    and which result the helper takes depends on the order of the set. *)
Example simultaneous_resolution :
  let tl : timeline :=
    [(10%Q, OnMessage (MkMessage 4 "yes" 1 2));
     (10%Q, OnReactionAdd (MkReaction (UnicodeEmoji "+1") 3) 1)] in
  wf_msg_or_reaction ascii_lower (MkContext 1 2 3) TNone [] None
    {["yes" := "+1"]} tl true = ([], Return (PairValue "+1")) /\
  wf_msg_or_reaction ascii_lower (MkContext 1 2 3) TNone [] None
    {["yes" := "+1"]} tl false
  = ([], Return (ReactionEmoji (UnicodeEmoji "+1"))).
Proof. split; reflexivity. Qed.

(** A single custom check leaves [checks[1]] out of range. *)
Example one_custom_check :
  wf_msg_or_reaction ascii_lower (MkContext 1 2 3) TNone
    [MkCheck (fun _ => Return true) (fun _ _ => Return true)] None ∅ [] true
  = ([], Raise (IndexError "list index out of range")).
Proof. reflexivity. Qed.

(** ** The lenient format mapping *)

(** A template whose fields are all plain names. *)
Definition plain_fields (template : list segment) : Prop :=
  Forall (fun seg => match seg with
                     | Literal _ => True
                     | Field name => classify name = PlainName
                     end) template.

Section MappingSpec.

Variable str_of : pyval -> string.
Hypothesis str_of_str : forall s, str_of (VStr s) = s.

(** C8, amended. Subscripting a [Mapping] with a key it lacks returns the
    string ["{" + str(key) + "}"] and raises nothing, and a key it has
    returns the stored value.  Hence, in a format string whose replacement
    fields are plain names, [format_map] leaves a field whose name the
    mapping lacks as it stands in the format string, and puts the stored
    value for the others. *)
Theorem mapping_keeps_unknown_placeholders (m : gmap pykey pyval) :
  (forall k, m !! k = None -> getitem m k = VStr ("{" +:+ str_key k +:+ "}")) /\
  (forall k v, m !! k = Some v -> getitem m k = v) /\
  (forall template,
     plain_fields template ->
     format_map str_of template m
     = Some (Return (Textwrap.join
         (map (fun seg =>
                 match seg with
                 | Literal text => text
                 | Field name =>
                     match m !! KStr name with
                     | Some v => str_of v
                     | None => field_source name
                     end
                 end) template)))).
Proof.
  split; [| split].
  - intros k Hk. unfold getitem. by rewrite Hk.
  - intros k v Hk. unfold getitem. by rewrite Hk.
  - intros template Hplain.
    induction Hplain as [|seg template Hseg _ IH]; simpl; [done |].
    destruct seg as [text | name]; rewrite IH; [done |].
    unfold format_field. rewrite Hseg.
    unfold getitem, __missing__, field_source.
    destruct (m !! KStr name); [done |]. by rewrite str_of_str.
Qed.

End MappingSpec.

(** [str] on the values used below. *)
Definition str_of_value (v : pyval) : string :=
  match v with
  | VStr s => s
  | VInt z => pretty z
  | _ => ""
  end.

(** The placeholder [{0}] is unknown to an empty [Mapping], and is not
    left as it stands: [format_map] raises [ValueError]. *)
Lemma positional_placeholder_raises :
  (∅ : gmap pykey pyval) !! KStr "0" = None /\
  format_map str_of_value [Literal "Hi "; Field "0"] ∅
  = Some (Raise (ValueError "Format string contains positional fields")) /\
  format_map str_of_value [Literal "Hi "; Field "0"] ∅
  <> Some (Return "Hi {0}").
Proof. repeat split. discriminate. Qed.

(** An empty field is positional too; a field with a conversion is not
    covered by [format_map] here. *)
Example other_fields :
  format_map str_of_value [Field ""] ∅
  = Some (Raise (ValueError "Format string contains positional fields")) /\
  format_map str_of_value [Field "name!r"] ∅ = None.
Proof. split; reflexivity. Qed.

Lemma mapping_keeps_unknown_placeholders_witness :
  getitem {[KStr "name" := VStr "Ada"]} (KInt 3) = VStr "{3}" /\
  getitem {[KStr "name" := VStr "Ada"]} (KStr "name") = VStr "Ada" /\
  format_map str_of_value
    [Literal "Hi "; Field "name"; Literal ", "; Field "title"; Literal "!"]
    {[KStr "name" := VStr "Ada"]}
  = Some (Return "Hi Ada, {title}!").
Proof.
  destruct (mapping_keeps_unknown_placeholders str_of_value
              (fun s => eq_refl) {[KStr "name" := VStr "Ada"]})
    as (Hmissing & Hstored & Hformat).
  split; [| split].
  - apply Hmissing. reflexivity.
  - apply Hstored. reflexivity.
  - rewrite Hformat; [reflexivity |].
    repeat constructor.
Defined.

End ExtSpec.

(** ** QOLBot: the bound of the queue, shutdown and the message cache *)

Module QOLBotLifecycleSpec.
Import QOLBot QOLBotLifecycle.

(** X3. From a freshly started worker, the counter of unfinished tasks of
    the queue counts the jobs that wait or run, under every schedule, and is
    back at zero once the queue is drained: [task_done] is called exactly
    once for every job taken, whether the job returned or raised. *)
Theorem counter_tracks_unfinished_jobs (b : bot) (evs : list event) :
  QOLBotSpec.fresh b ->
  let b' := run b evs in
  unfinished_tasks (queue b')
  = Z.of_nat (length (running b') + length (items (queue b'))) /\
  unfinished_tasks (queue (run b' (drain b'))) = 0.
Proof.
  intros Hfresh b'.
  assert (QOLBotSpec.consistent b') as Hb
    by by apply QOLBotSpec.run_consistent, QOLBotSpec.fresh_consistent.
  destruct (QOLBotSpec.drain_spec b' Hb)
    as ([_ (done' & _ & _ & Hcnt' & _)] & Hw' & Hit' & _).
  destruct Hb as [_ (done & _ & _ & Hcnt & _)]. split.
  - rewrite Hcnt, length_app. done.
  - cbv zeta. rewrite Hcnt'. unfold running. by rewrite Hw', Hit'.
Qed.

Lemma counter_tracks_unfinished_jobs_witness :
  unfinished_tasks
    (queue (run (QOLBotSpec.idle 30)
                [Put (Job 1 Returns); Put (Job 2 Returns); Resume])) = 2.
Proof.
  apply (counter_tracks_unfinished_jobs (QOLBotSpec.idle 30)
           [Put (Job 1 Returns); Put (Job 2 Returns); Resume]).
  repeat split.
Defined.

(** X4. Shutting down while the worker waits for a job ends the worker:
    whatever is put or resumed afterwards, no further job is started and
    nothing more is logged. *)
Theorem close_stops_idle_worker (b : bot) (interrupted : outcome)
    (evs : list event) :
  worker b = AwaitingGet ->
  let b' := run (close b interrupted) evs in
  alive b' = false /\ trace b' = trace b /\ stderr b' = stderr b.
Proof.
  intros Hidle. unfold close. rewrite Hidle.
  set (b0 := MkBot (queue b) (Crashed CancelledError) (trace b) (stderr b)
                   (enqueued b)).
  assert (forall evs b1,
    worker b1 = Crashed CancelledError ->
    worker (run b1 evs) = Crashed CancelledError /\
    trace (run b1 evs) = trace b1 /\ stderr (run b1 evs) = stderr b1) as Hdead.
  { clear. induction evs as [|ev evs IH]; intros b1 Hw; [done |].
    simpl. destruct ev as [j |]; simpl.
    - destruct (IH (put b1 j)) as (H1 & H2 & H3).
      + unfold put. by destruct (put_nowait _ _).
      + rewrite H1, H2, H3. unfold put. by destruct (put_nowait _ _).
    - replace (queue_worker b1) with b1; [by apply IH |].
      unfold queue_worker. by rewrite Hw. }
  destruct (Hdead evs b0 eq_refl) as (Hw & Htr & Herr).
  cbv zeta. unfold alive. by rewrite Hw, Htr, Herr.
Qed.

Lemma close_stops_idle_worker_witness :
  trace (run (close (QOLBotSpec.idle 30) (Raises CancelledError))
             [Put (Job 1 Returns); Resume; Resume]) = [].
Proof.
  apply (close_stops_idle_worker (QOLBotSpec.idle 30)
           (Raises CancelledError)
           [Put (Job 1 Returns); Resume; Resume]).
  reflexivity.
Defined.

(** X5. Shutting down while a job runs does not end the worker.  The
    cancellation surfaces at [await job] and the [except] clause takes it
    like any failure of the job: it is logged when the await raises, the
    job counts as done, and in the same wake-up the worker is back at
    [queue.get()], which hands over the next waiting job at once.  So the
    worker is then awaiting the next job of the queue, or waiting at [get]
    when the queue is empty. *)
Theorem close_during_job_keeps_worker (b : bot) (j : job)
    (interrupted : outcome) :
  worker b = AwaitingJob j ->
  0 < unfinished_tasks (queue b) ->
  let b' := queue_worker (close b interrupted) in
  alive b' = true /\
  trace (close b interrupted) = trace b ++ [Finished j] /\
  stderr b'
  = stderr b ++ match interrupted with
                | Returns => []
                | Raises e =>
                    [Line "(QOLBot Worker) Failed to do job ID '{}' - Skipping.";
                     Traceback e]
                end /\
  match items (queue b) with
  | [] => worker b' = AwaitingGet /\ trace b' = trace b ++ [Finished j]
  | next :: rest =>
      worker b' = AwaitingJob next /\ items (queue b') = rest /\
      trace b' = trace b ++ [Finished j; Started next]
  end.
Proof.
  intros Hw Hcnt.
  assert (close b interrupted
          = MkBot (MkQueue (maxsize (queue b)) (items (queue b))
                           (unfinished_tasks (queue b) - 1))
                  AwaitingGet (trace b ++ [Finished j])
                  (stderr b ++ failure_log (Job (job_id j) interrupted))
                  (enqueued b)) as ->.
  { unfold close. rewrite Hw. unfold finish_job, task_done.
    destruct (decide (unfinished_tasks (queue b) <= 0)); [lia | done]. }
  cbv zeta. unfold queue_worker, get. simpl.
  destruct (items (queue b)) as [|next rest]; simpl.
  - repeat split; by destruct interrupted.
  - rewrite <- app_assoc. repeat split; by destruct interrupted.
Qed.

Lemma close_during_job_keeps_worker_witness :
  alive (queue_worker
           (close (run (QOLBotSpec.idle 30) [Put (Job 1 Returns); Resume])
                  (Raises CancelledError))) = true.
Proof.
  apply (close_during_job_keeps_worker
           (run (QOLBotSpec.idle 30) [Put (Job 1 Returns); Resume])
           (Job 1 Returns) (Raises CancelledError));
    reflexivity.
Defined.

(** The cancellation is logged as a failure of the running job, and the
    job put behind it still runs. *)
Example close_then_next_job :
  let b := run (QOLBotSpec.idle 30)
               [Put (Job 1 Returns); Put (Job 2 Returns); Resume] in
  let b' := run (close b (Raises CancelledError)) [Resume; Resume] in
  stderr b' = [Line failure_message; Traceback CancelledError] /\
  awaited b' = [Job 1 Returns; Job 2 Returns] /\ worker b' = AwaitingGet.
Proof. repeat split. Qed.

(** X6. [get_message] finds the first cached message with the id, and
    finds none exactly when no cached message has it. *)
Theorem get_message_finds_first (cached : list Ext.Message) (id : Z) :
  match get_message cached id with
  | Some m =>
      exists before after,
        cached = before ++ m :: after /\ Ext.message_id m = id /\
        forall m', m' ∈ before -> Ext.message_id m' <> id
  | None => forall m, m ∈ cached -> Ext.message_id m <> id
  end.
Proof.
  unfold get_message. induction cached as [|m0 cached IH]; simpl.
  - intros m Hin. by apply elem_of_nil in Hin.
  - destruct (Ext.message_id m0 =? id) eqn:Hid.
    + apply Z.eqb_eq in Hid. exists [], cached. repeat split; [done |].
      intros m' Hin. by apply elem_of_nil in Hin.
    + apply Z.eqb_neq in Hid.
      destruct (find _ cached) as [m|].
      * destruct IH as (before & after & -> & Hm & Hbefore).
        exists (m0 :: before), after. repeat split; [done |].
        intros m' Hin. apply elem_of_cons in Hin as [-> | Hin]; auto.
      * intros m Hin. apply elem_of_cons in Hin as [-> | Hin]; auto.
Qed.

End QOLBotLifecycleSpec.

(** ** VerboseBot: construction, delivery and the event handlers *)

Module VerboseBotEventsSpec.
Import VerboseBot VerboseBotEvents.

(** The key of the flag that the handler of a callback consults. *)
Definition gate (cb : callback) : string :=
  match cb with
  | Connect | Disconnect | Ready _ _ _ => "connection"
  | Command _ _ | CommandCompletion _ _ | CommandErrorRaised _ _ _ =>
      "commands"
  end.

(** The context a callback carries, and the text of the stand-in guild
    that its handler would make. *)
Definition callback_context (cb : callback) : option (Context * string) :=
  match cb with
  | Command ctx repr | CommandCompletion ctx repr
  | CommandErrorRaised ctx repr _ => Some (ctx, repr)
  | Connect | Disconnect | Ready _ _ _ => None
  end.

Section Events.

Variable check_mark : string.
Variable cross_mark : string.
Variable intcomma : nat -> string.

#[local] Abbreviation handle := (handle check_mark cross_mark intcomma).

Lemma handle_log_if (events : pyval) (cb : callback) :
  exists message,
    (handle events cb).2 = log_if events (gate cb) message.
Proof. destruct cb; simpl; eauto. Qed.

(** X7. Every handler is switched by one flag: the connect, disconnect
    and ready handlers by ["connection"], the three command handlers, the
    one for command errors included, by ["commands"].  With the flag true
    the handler logs a message, with the flag false it logs nothing, and
    when reading the flag raises, the handler raises the same. *)
Theorem handlers_follow_their_flag (events : pyval) (cb : callback) :
  match event_flag events (gate cb) with
  | Return true => exists message, (handle events cb).2 = Return (Some message)
  | Return false => (handle events cb).2 = Return None
  | Raise e => (handle events cb).2 = Raise e
  end.
Proof.
  destruct (handle_log_if events cb) as [message ->]. unfold log_if.
  destruct (event_flag events (gate cb)) as [[|]|e]; eauto.
Qed.

(** X8. The flags [on_ready] and [command_errors] of a [LogEvents] are
    never read: changing them changes no handler's outcome. *)
Theorem on_ready_and_command_errors_flags_are_unused
    (connection commands on_ready command_errors on_ready'
     command_errors' : bool) (cb : callback) :
  handle (VLogEvents connection on_ready commands command_errors) cb
  = handle (VLogEvents connection on_ready' commands command_errors') cb.
Proof. by destruct cb. Qed.

(** X9. A command handler always leaves a guild on the context, also in a
    direct message and whether or not it logs.  After the handler the
    context has the guild it had, or, when it had none, the stand-in
    [DMChannelGuild], whose id prints as ["@me"]; every other field is as it
    was.  A command handler called later on that context leaves it as it
    is. *)
Theorem command_handlers_set_the_guild (events : pyval) (cb : callback)
    (ctx : Context) (repr : string) :
  callback_context cb = Some (ctx, repr) ->
  let ctx' :=
    MkContext (author ctx) (author_id ctx) (qualified_name ctx) (channel ctx)
              (channel_id ctx)
              (Some (match guild ctx with
                     | Some g => g
                     | None => DMChannelGuild repr
                     end))
              (n_args ctx) (n_kwargs ctx) (author_permissions ctx)
              (bot_permissions ctx) in
  (handle events cb).1 = Some ctx' /\
  (guild ctx = None -> option_map guild_id_str (guild ctx') = Some "@me") /\
  forall events' cb' repr',
    callback_context cb' = Some (ctx', repr') ->
    (handle events' cb').1 = Some ctx'.
Proof.
  intros Hcb ctx'.
  assert (ensure_guild ctx repr = ctx') as Hset.
  { subst ctx'. unfold ensure_guild. destruct ctx as [a ai q c ci [g|] na nk pa pb]; done. }
  assert (forall repr', ensure_guild ctx' repr' = ctx') as Hkeep by done.
  split; [| split].
  - destruct cb as [| | c r | c r | c r err |];
      simpl in Hcb; try discriminate Hcb; injection Hcb as -> ->;
      simpl; by rewrite Hset.
  - intros Hnone. subst ctx'. simpl. by rewrite Hnone.
  - intros events' cb' repr' Hcb'.
    destruct cb' as [| | c r | c r | c r err |];
      simpl in Hcb'; try discriminate Hcb'; injection Hcb' as -> ->;
      simpl; by rewrite Hkeep.
Qed.

End Events.

Lemma command_handlers_set_the_guild_witness :
  (VerboseBotEvents.handle "+" "x" (fun _ => "0") VNone
     (Command (MkContext "ada" 1 "ping" "dm" 2 None 0 0 0 0) "<obj>")).1
  = Some (MkContext "ada" 1 "ping" "dm" 2 (Some (DMChannelGuild "<obj>"))
                    0 0 0 0).
Proof.
  apply (command_handlers_set_the_guild "+" "x" (fun _ => "0") VNone
           (Command (MkContext "ada" 1 "ping" "dm" 2 None 0 0 0 0) "<obj>")
           (MkContext "ada" 1 "ping" "dm" 2 None 0 0 0 0) "<obj>").
  reflexivity.
Defined.

(** In a direct message the guild is printed with the id ["@me"]. *)
Example direct_message_command :
  (on_command_completion "+" (VLogEvents true true true true)
     (MkContext "ada" 1 "ping" "dm" 2 None 1 0 0 0) "<obj>").2
  = Return (Some
      "[+ COMMANDS] ada (`1`) is finished running command ping in dm (`2`), in <obj> (`@me`) with 1 arguments.").
Proof. reflexivity. Qed.

Section Construction.

Variable Base : Type.
Variable super_init : list pyval -> gmap string pyval -> result Base.
Variable check_mark : string.
Variable cross_mark : string.
Variable intcomma : nat -> string.

#[local] Abbreviation handle := (VerboseBotEvents.handle check_mark cross_mark intcomma).

(** What [init] returns when it returns a bot. *)
Lemma init_returns (args : list pyval) (kwargs : gmap string pyval)
    (b : bot Base) :
  init Base super_init args kwargs = Return b ->
  let id := default VNone (kwargs !! "log_channel") in
  let events := default LogEvents_default (kwargs !! "log_events") in
  (truthy id = false \/ isinstance_int id = true) /\
  isinstance_dict events = true /\
  exists base,
    super_init args (delete "log_events" (delete "log_channel" kwargs))
      = Return base /\
    b = MkBot Base id events None base ["on_command_error"; "on_ready"]
              false ∅.
Proof.
  unfold init. intros Hinit. cbv zeta.
  destruct (truthy _ && negb _) eqn:Hid; [done |].
  rewrite lookup_delete_ne in Hinit by done.
  destruct (negb (isinstance_dict _)) eqn:Hev; [done |].
  destruct (super_init _ _) as [base|e]; [| done].
  injection Hinit as <-. split; [| split].
  - apply andb_false_iff in Hid as [Hid | Hid]; [by left |].
    right. by apply negb_false_iff.
  - by apply negb_false_iff.
  - by exists base.
Qed.

(** X10. The base class never sees the two logging keywords, and receives
    every other keyword as it was given. *)
Theorem init_consumes_logging_keywords (args : list pyval)
    (kwargs : gmap string pyval) (b : bot Base) :
  init Base super_init args kwargs = Return b ->
  exists passed,
    super_init args passed = Return (base Base b) /\
    passed !! "log_channel" = None /\ passed !! "log_events" = None /\
    forall key, key <> "log_channel" -> key <> "log_events" ->
                passed !! key = kwargs !! key.
Proof.
  intros Hinit. destruct (init_returns args kwargs b Hinit)
    as (_ & _ & base & Hsuper & ->).
  eexists. split; [exact Hsuper |]. split; [| split].
  - rewrite lookup_delete_ne by done. apply lookup_delete_eq.
  - apply lookup_delete_eq.
  - intros key Hc He. by rewrite !lookup_delete_ne.
Qed.

(** X11. A bot built without [log_events] gets [LogEvents()] with every
    flag true, so each of its handlers logs a message. *)
Theorem default_events_log_every_callback (args : list pyval)
    (kwargs : gmap string pyval) (b : bot Base) (cb : callback) :
  kwargs !! "log_events" = None ->
  init Base super_init args kwargs = Return b ->
  exists message,
    (handle (_logging_events Base b) cb).2 = Return (Some message).
Proof.
  intros Hnone Hinit. destruct (init_returns args kwargs b Hinit)
    as (_ & _ & base & _ & ->).
  rewrite Hnone. simpl. destruct cb; simpl; eauto.
Qed.

(** X12. A plain dictionary passes the constructor whatever its keys, but
    a handler whose flag it lacks raises [KeyError] when its event
    arrives. *)
Theorem dict_without_flag_raises_KeyError (args : list pyval)
    (kwargs : gmap string pyval) (entries : list (string * pyval))
    (b : bot Base) (cb : callback) :
  kwargs !! "log_events" = Some (VDict entries) ->
  init Base super_init args kwargs = Return b ->
  dict_lookup entries (gate cb) = None ->
  (handle (_logging_events Base b) cb).2 = Raise (KeyError (gate cb)).
Proof.
  intros Hev Hinit Hmissing. destruct (init_returns args kwargs b Hinit)
    as (_ & _ & base & _ & ->).
  rewrite Hev. simpl.
  destruct (handle_log_if check_mark cross_mark intcomma (VDict entries) cb)
    as [message ->].
  unfold log_if, event_flag. by rewrite Hmissing.
Qed.

End Construction.

Lemma init_consumes_logging_keywords_witness :
  exists passed : gmap string pyval,
    passed !! "log_channel" = None /\ passed !! "command_prefix" = Some (VStr "!").
Proof.
  assert (init unit (fun _ _ => Return tt) []
            {["log_channel" := VInt 7; "command_prefix" := VStr "!"]}
          = Return (MkBot unit (VInt 7) LogEvents_default None tt
                          ["on_command_error"; "on_ready"] false ∅))
    as Hinit by reflexivity.
  destruct (init_consumes_logging_keywords unit (fun _ _ => Return tt) []
              _ _ Hinit) as (passed & _ & Hc & _ & Hother).
  exists passed. split; [done |]. by rewrite Hother.
Defined.

Lemma default_events_log_every_callback_witness :
  exists message,
    (VerboseBotEvents.handle "+" "x" (fun _ => "0") LogEvents_default Connect).2
    = Return (Some message).
Proof.
  apply (default_events_log_every_callback unit (fun _ _ => Return tt)
           "+" "x" (fun _ => "0") [] ∅
           (MkBot unit VNone LogEvents_default None tt
                  ["on_command_error"; "on_ready"] false ∅) Connect);
    reflexivity.
Defined.

Lemma dict_without_flag_raises_KeyError_witness :
  (VerboseBotEvents.handle "+" "x" (fun _ => "0") (VDict []) Connect).2
  = Raise (KeyError "connection").
Proof.
  apply (dict_without_flag_raises_KeyError unit (fun _ _ => Return tt)
           "+" "x" (fun _ => "0") [] {["log_events" := VDict []]} []
           (MkBot unit VNone (VDict []) None tt
                  ["on_command_error"; "on_ready"] false ∅) Connect);
    reflexivity.
Defined.

End VerboseBotEventsSpec.

(** ** VerboseBot: what [_log_bg] sends and prints *)

Module VerboseBotLoggingSpec.
Import VerboseBot.

Definition is_print (e : effect) : bool :=
  match e with Print _ => true | _ => false end.

Section Logging.

Variable Base : Type.
Variable shorten : string -> nat -> result string.

#[local] Abbreviation _log_bg := (_log_bg Base shorten).

(** [deliver] sends at most one text, prints the message last and only
    once when it ends well, and has sent nothing when it raises. *)
Lemma deliver_shape (ch : TextChannel) (message : string)
    (shorten_if_needed : bool) (rnd : nat) :
  let out := deliver shorten ch message shorten_if_needed rnd in
  (length (delivered out.1) <= 1)%nat /\
  match out.2 with
  | Return _ =>
      exists before,
        out.1 = before ++ [Print message] /\
        List.filter is_print before = []
  | Raise _ => True
  end.
Proof.
  unfold deliver. destruct (manage_webhooks _).
  - destruct (outgoing shorten message shorten_if_needed) as [text|e];
      destruct (webhooks ch) as [|w ws]; simpl;
        (split; [lia |]); try done.
    + by exists [FetchWebhooks (channel_id ch);
                 CreateWebhook (channel_id ch) "VerboseBot Logging";
                 WebhookSend (Created "VerboseBot Logging") text].
    + by exists [FetchWebhooks (channel_id ch);
                 WebhookSend (Existing (random_choice rnd w ws)) text].
  - destruct (send_messages _).
    + destruct (outgoing shorten message shorten_if_needed) as [text|e];
        simpl; (split; [lia |]); try done.
      by exists [ChannelSend (channel_id ch) text].
    + simpl. split; [lia |]. by exists [].
Qed.

Lemma waited_shape (b : bot Base) :
  let waited := if is_ready Base b then [] else [WaitUntilReady] in
  delivered waited = [] /\ List.filter is_print waited = [].
Proof. by destruct (is_ready Base b). Qed.

(** X13. One call of [_log_bg] sends at most one text: whatever the
    permissions, the webhooks of the channel and the message, it never sends
    through the webhook and to the channel both, and never twice. *)
Theorem log_bg_sends_at_most_once (b : bot Base) (message : string)
    (shorten_if_needed : bool) (rnd : nat) :
  let out := _log_bg b message shorten_if_needed rnd in
  (length (List.filter is_webhook_send out.1.2)
   + length (List.filter is_channel_send out.1.2) <= 1)%nat /\
  length (delivered out.1.2)
  = (length (List.filter is_webhook_send out.1.2)
     + length (List.filter is_channel_send out.1.2))%nat.
Proof.
  cbv zeta.
  assert (forall ch,
    let effs := (deliver shorten ch message shorten_if_needed rnd).1 in
    (length (List.filter is_webhook_send effs)
     + length (List.filter is_channel_send effs) <= 1)%nat /\
    length (delivered effs)
    = (length (List.filter is_webhook_send effs)
       + length (List.filter is_channel_send effs))%nat) as Hdeliver.
  { intros ch. unfold deliver. destruct (manage_webhooks _).
    - destruct (outgoing shorten message shorten_if_needed) as [text|e];
        destruct (webhooks ch) as [|w ws]; simpl; lia.
    - destruct (send_messages _); [| simpl; lia].
      destruct (outgoing shorten message shorten_if_needed) as [text|e];
        simpl; lia. }
  assert (forall effs : list effect,
    let waited := if is_ready Base b then [] else [WaitUntilReady] in
    List.filter is_webhook_send (waited ++ effs)
    = List.filter is_webhook_send effs /\
    List.filter is_channel_send (waited ++ effs)
    = List.filter is_channel_send effs /\
    delivered (waited ++ effs) = delivered effs) as Hwaited.
  { intros effs. by destruct (is_ready Base b). }
  unfold VerboseBot._log_bg, resolve_channel.
  destruct (_log_channel Base b) as [ch|] eqn:Hch; simpl.
  - rewrite Hch. specialize (Hdeliver ch).
    by destruct (deliver _ ch message shorten_if_needed rnd) as [effs r].
  - destruct (get_channel Base b _) as [[ch|]|e]; simpl.
    + specialize (Hdeliver ch).
      destruct (deliver _ ch message shorten_if_needed rnd) as [effs r].
      simpl in *. destruct (Hwaited effs) as (-> & -> & ->). done.
    + destruct (is_ready Base b); simpl; lia.
    + destruct (is_ready Base b); simpl; lia.
Qed.

(** X14. When [_log_bg] ends well with a channel at hand, the last thing
    it does is print the message, in full even when a shortened text was
    sent or nothing could be sent, and it prints nothing else. *)
Theorem log_bg_prints_the_full_message (b : bot Base) (message : string)
    (shorten_if_needed : bool) (rnd : nat) (ch : TextChannel) :
  let out := _log_bg b message shorten_if_needed rnd in
  _log_channel Base out.1.1 = Some ch ->
  out.2 = Return tt ->
  exists before,
    out.1.2 = before ++ [Print message] /\
    List.filter is_print before = [].
Proof.
  cbv zeta. unfold VerboseBot._log_bg, resolve_channel.
  destruct (_log_channel Base b) as [ch0|] eqn:Hch; simpl.
  - rewrite Hch. pose proof (deliver_shape ch0 message shorten_if_needed rnd)
      as [_ Hshape].
    destruct (deliver _ ch0 message shorten_if_needed rnd) as [effs r].
    simpl in *. intros _ ->. done.
  - destruct (waited_shape b) as [_ Hw].
    destruct (get_channel Base b _) as [[ch1|]|e]; simpl; [| done | done].
    pose proof (deliver_shape ch1 message shorten_if_needed rnd)
      as [_ Hshape].
    destruct (deliver _ ch1 message shorten_if_needed rnd) as [effs r].
    simpl in *. intros _ ->. destruct Hshape as (before & -> & Hnone).
    exists ((if is_ready Base b then [] else [WaitUntilReady]) ++ before).
    split; [by rewrite app_assoc |].
    by rewrite List.filter_app, Hw, Hnone.
Qed.

(** X15. When the lookup of the channel id finds nothing, as for a bot
    built without [log_channel], the message is dropped: nothing is sent,
    nothing is printed, no exception is raised, and no channel is cached,
    so that the next call looks again. *)
Theorem log_bg_without_channel_is_silent (b : bot Base) (message : string)
    (shorten_if_needed : bool) (rnd : nat) :
  _log_channel Base b = None ->
  get_channel Base b (_logging_channel_id Base b) = Return None ->
  let out := _log_bg b message shorten_if_needed rnd in
  out.2 = Return tt /\
  delivered out.1.2 = [] /\ List.filter is_print out.1.2 = [] /\
  _log_channel Base out.1.1 = None /\
  get_channel Base out.1.1 (_logging_channel_id Base out.1.1) = Return None.
Proof.
  intros Hch Hget. cbv zeta. unfold VerboseBot._log_bg, resolve_channel.
  rewrite Hch, Hget. simpl. destruct (waited_shape b) as [Hd Hp].
  repeat split; done.
Qed.

End Logging.

(** X16. With [shorten_if_needed] false, [shorten] is never called: the
    text sent, if any, is the message itself whatever its length, and the
    call does the same under any [shorten]. *)
Theorem log_bg_unshortened_is_verbatim (Base : Type)
    (shorten shorten' : string -> nat -> result string) (b : bot Base)
    (message : string) (rnd : nat) :
  let out := VerboseBot._log_bg Base shorten b message false rnd in
  (delivered out.1.2 = [message] \/ delivered out.1.2 = []) /\
  VerboseBot._log_bg Base shorten' b message false rnd = out.
Proof.
  cbv zeta.
  assert (forall ch,
    deliver shorten' ch message false rnd = deliver shorten ch message false rnd
    /\ (delivered (deliver shorten ch message false rnd).1 = [message] \/
        delivered (deliver shorten ch message false rnd).1 = [])) as Hdeliver.
  { intros ch. unfold deliver, outgoing. simpl.
    destruct (manage_webhooks _); [destruct (webhooks ch); simpl; auto |].
    destruct (send_messages _); simpl; auto. }
  unfold VerboseBot._log_bg, resolve_channel.
  destruct (_log_channel Base b) as [ch|] eqn:Hch; simpl.
  - rewrite Hch. destruct (Hdeliver ch) as [-> Hd].
    by destruct (deliver shorten ch message false rnd).
  - destruct (get_channel Base b _) as [[ch|]|e]; simpl.
    + destruct (Hdeliver ch) as [-> Hd].
      destruct (deliver shorten ch message false rnd) as [effs r].
      simpl in *. split; [| done]. unfold delivered in *.
      rewrite flat_map_app. by destruct (is_ready Base b).
    + split; [| done]. right. by destruct (is_ready Base b).
    + split; [| done]. right. by destruct (is_ready Base b).
Qed.

Lemma log_bg_prints_the_full_message_witness :
  exists before,
    (VerboseBot._log_bg unit (fun s _ => Return s)
       (MkBot unit (VInt 7) LogEvents_default
              (Some (MkTextChannel 7 (MkPermissions false false) []))
              tt [] true ∅) "hello" true 0).1.2
    = before ++ [Print "hello"] /\ List.filter is_print before = [].
Proof.
  apply (log_bg_prints_the_full_message unit (fun s _ => Return s)
           (MkBot unit (VInt 7) LogEvents_default
                  (Some (MkTextChannel 7 (MkPermissions false false) []))
                  tt [] true ∅) "hello" true 0
           (MkTextChannel 7 (MkPermissions false false) []));
    reflexivity.
Defined.

Lemma log_bg_without_channel_is_silent_witness :
  (VerboseBot._log_bg unit (fun s _ => Return s)
     (MkBot unit VNone LogEvents_default None tt [] false ∅)
     "hello" true 0).1.2 = [WaitUntilReady] /\
  (VerboseBot._log_bg unit (fun s _ => Return s)
     (MkBot unit VNone LogEvents_default None tt [] false ∅)
     "hello" true 0).2 = Return tt.
Proof.
  destruct (log_bg_without_channel_is_silent unit (fun s _ => Return s)
              (MkBot unit VNone LogEvents_default None tt [] false ∅)
              "hello" true 0 eq_refl eq_refl) as (Hr & _).
  split; [reflexivity | exact Hr].
Defined.

End VerboseBotLoggingSpec.

(** ** The race: outcomes under the default and under custom checks *)

Module ExtRaceSpec.
Import Ext.

Section Outcomes.

Variable lower : string -> string.

(** A wait resolves, if at all, at an event of the timeline on which its
    check did not answer false, with what the check made of it. *)
Lemma wait_for_message_resolved check tl t res :
  wait_for_message check tl = Some (t, res) ->
  exists m,
    (t, OnMessage m) ∈ tl /\
    ((check m = Return true /\ res = Return (GotMessage m)) \/
     (exists e, check m = Raise e /\ res = Raise e)).
Proof.
  induction tl as [|[t' ev] tl IH]; simpl; [done |].
  destruct ev as [m | r u].
  - destruct (check m) as [[|]|e] eqn:Hm.
    + intros [= -> <-]. exists m. split; [by left | by left].
    + intros Hrec. destruct (IH Hrec) as (m' & Hin & Hres).
      exists m'. split; [by right | done].
    + intros [= -> <-]. exists m. split; [by left | right; eauto].
  - intros Hrec. destruct (IH Hrec) as (m' & Hin & Hres).
    exists m'. split; [by right | done].
Qed.

Lemma wait_for_reaction_resolved check tl t res :
  wait_for_reaction check tl = Some (t, res) ->
  exists r u,
    (t, OnReactionAdd r u) ∈ tl /\
    ((check r u = Return true /\ res = Return (GotReaction r u)) \/
     (exists e, check r u = Raise e /\ res = Raise e)).
Proof.
  induction tl as [|[t' ev] tl IH]; simpl; [done |].
  destruct ev as [m | r u].
  - intros Hrec. destruct (IH Hrec) as (r' & u' & Hin & Hres).
    exists r', u'. split; [by right | done].
  - destruct (check r u) as [[|]|e] eqn:Hr.
    + intros [= -> <-]. exists r, u. split; [by left | by left].
    + intros Hrec. destruct (IH Hrec) as (r' & u' & Hin & Hres).
      exists r', u'. split; [by right | done].
    + intros [= -> <-]. exists r, u. split; [by left | right; eauto].
Qed.

(** What [done.pop()] yields is the outcome of one of the two waits, which
    resolved before the deadline. *)
Lemma pop_wait d msg reaction message_first name res :
  pop message_first (wait d msg reaction) = Some (name, res) ->
  (exists t, msg = Some (t, res) /\ (t < d)%Q) \/
  (exists t, reaction = Some (t, res) /\ (t < d)%Q).
Proof.
  assert (forall w t r, in_time d w = Some (t, r) ->
                        w = Some (t, r) /\ (t < d)%Q) as Hin.
  { intros [[t' r']|] t r; simpl; [| done].
    destruct (Qle_bool d t') eqn:Hle; [done |]. intros [= -> ->].
    split; [done |]. apply Qnot_le_lt. intros Hdt.
    apply Qle_bool_iff in Hdt. congruence. }
  unfold wait.
  destruct (in_time d msg) as [[tm rm]|] eqn:Hm;
    destruct (in_time d reaction) as [[tr rr]|] eqn:Hr; simpl.
  - apply Hin in Hm as [-> Hm]. apply Hin in Hr as [-> Hr].
    destruct (Qeq_bool tm tr); simpl.
    + destruct message_first; intros [= _ <-]; eauto.
    + destruct (Qle_bool tm tr); simpl; intros [= _ <-]; eauto.
  - apply Hin in Hm as [-> Hm]. intros [= _ <-]. eauto.
  - apply Hin in Hr as [-> Hr]. intros [= _ <-]. eauto.
  - done.
Qed.

(** X17. Under the default checks the helper ends in one of three ways
    only: it returns the value that [pairs] holds for the lowered content
    of a message of the timeline that passed the message check, it returns
    the emoji of a reaction of the timeline that passed the reaction check,
    or it raises [TimeoutError].  It never raises [KeyError]. *)
Theorem default_checks_outcomes (ctx : Context) (timeout : timeout_arg)
    (message : option Z) (pairs : gmap string string) (tl : timeline)
    (message_first : bool) :
  match
    (wf_msg_or_reaction lower ctx timeout [] message pairs tl message_first).2
  with
  | Return (PairValue v) =>
      exists t m,
        (t, OnMessage m) ∈ tl /\ message_check lower ctx pairs m = true /\
        pairs !! lower (content m) = Some v
  | Return (ReactionEmoji e) =>
      exists t r u,
        (t, OnReactionAdd r u) ∈ tl /\
        reaction_check ctx pairs (default (ctx_message ctx) message) r u
        = true /\ emoji r = e
  | Raise e => e = TimeoutError
  end.
Proof.
  unfold wf_msg_or_reaction. simpl.
  destruct (pop message_first _) as [[name res]|] eqn:Hpop; [| done].
  apply pop_wait in Hpop as [(t & Hw & _) | (t & Hw & _)].
  - apply wait_for_message_resolved in Hw
      as (m & Hin & [[Hm ->] | (e & Hm & _)]); [| done].
    injection Hm as Hm. simpl.
    pose proof Hm as Hkey. apply ExtSpec.message_check_spec in Hkey
      as (_ & [v Hv] & _).
    rewrite Hv. simpl. eauto.
  - apply wait_for_reaction_resolved in Hw
      as (r & u & Hin & [[Hr ->] | (e & Hr & _)]); [| done].
    injection Hr as Hr. simpl. eauto 6.
Qed.

(** A value of [pairs] returned under the default checks is the one held
    for the lowered content of some message. *)
Lemma default_pair_value (ctx : Context) (timeout : timeout_arg)
    (message : option Z) (pairs : gmap string string) (tl : timeline)
    (message_first : bool) (v : string) :
  (wf_msg_or_reaction lower ctx timeout [] message pairs tl message_first).2
  = Return (PairValue v) ->
  exists m, pairs !! lower (content m) = Some v.
Proof.
  unfold wf_msg_or_reaction. simpl.
  destruct (pop message_first _) as [[name [[m | r u] | e]]|]; simpl;
    try done.
  destruct (pairs !! lower (content m)) as [v'|] eqn:Hv; simpl; [| done].
  intros [= <-]. eauto.
Qed.

(** The wait for a message resolves at the first message on which its
    check does not answer false. *)
Lemma wait_for_message_first_resolution check before t m after :
  (forall t' m', (t', OnMessage m') ∈ before -> check m' = Return false) ->
  wait_for_message check (before ++ (t, OnMessage m) :: after)
  = match check m with
    | Return true => Some (t, Return (GotMessage m))
    | Return false => wait_for_message check after
    | Raise e => Some (t, Raise e)
    end.
Proof.
  intros Hbefore. induction before as [|[t' ev] before IH]; simpl; [done |].
  assert (forall t'' m', (t'', OnMessage m') ∈ before ->
                         check m' = Return false) as Hrest.
  { intros t'' m' Hin. apply (Hbefore t''). by right. }
  destruct ev as [m' | r u]; [| by apply IH].
  rewrite (Hbefore t' m') by by left. by apply IH.
Qed.

(** The message wait alone is done when it resolves in time and every
    reaction that the reaction check does not reject is stamped later. *)
Lemma message_task_alone check0 check1 d before t m after res :
  let tl := before ++ (t, OnMessage m) :: after in
  wait_for_message check0 tl = Some (t, res) ->
  (forall t' r u, (t', OnReactionAdd r u) ∈ tl ->
                  check1 r u <> Return false -> (t < t')%Q) ->
  (t < d)%Q ->
  wait d (wait_for_message check0 tl) (wait_for_reaction check1 tl)
  = [(MessageTask, res)].
Proof.
  intros tl Hmsg Hlater Hlt. rewrite Hmsg.
  apply ExtSpec.wait_message_only; [done |].
  intros t' rr Hres.
  apply wait_for_reaction_resolved in Hres
    as (r & u & Hin & [[Hr _] | (e & Hr & _)]);
    apply (Hlater t' r u Hin); by rewrite Hr.
Qed.

(** X18. An exception raised by a caller's message check surfaces: when
    the check raises on the first message it does not reject, in time and
    before any reaction that the second check does not reject, the helper
    cancels the reaction wait and raises that exception. *)
Theorem custom_check_exception_is_reraised
    (ctx : Context) (timeout : timeout_arg) (c0 c1 : custom_check)
    (more : list custom_check) (message : option Z)
    (pairs : gmap string string) (before after : timeline) (t : Q)
    (m : Message) (e : exn) (message_first : bool) :
  let tl := before ++ (t, OnMessage m) :: after in
  (forall t' m', (t', OnMessage m') ∈ before ->
                 on_message c0 m' = Return false) ->
  on_message c0 m = Raise e ->
  (forall t' r u, (t', OnReactionAdd r u) ∈ tl ->
                  on_reaction c1 r u <> Return false -> (t < t')%Q) ->
  (t < effective_timeout timeout)%Q ->
  wf_msg_or_reaction lower ctx timeout (c0 :: c1 :: more) message pairs tl
    message_first
  = ([ReactionTask], Raise e).
Proof.
  intros tl Hbefore Hraise Hlater Hlt. unfold wf_msg_or_reaction. simpl.
  rewrite (message_task_alone (on_message c0) (on_reaction c1) _ before t m
             after (Raise e)); try done.
  subst tl. by rewrite wait_for_message_first_resolution, Hraise.
Qed.

(** X19. A caller's message check may accept a reply whose lowered content
    is no key of [pairs]; the helper then raises [KeyError] with that
    content. *)
Theorem custom_check_unknown_reply_raises_KeyError
    (ctx : Context) (timeout : timeout_arg) (c0 c1 : custom_check)
    (more : list custom_check) (message : option Z)
    (pairs : gmap string string) (before after : timeline) (t : Q)
    (m : Message) (message_first : bool) :
  let tl := before ++ (t, OnMessage m) :: after in
  (forall t' m', (t', OnMessage m') ∈ before ->
                 on_message c0 m' = Return false) ->
  on_message c0 m = Return true ->
  pairs !! lower (content m) = None ->
  (forall t' r u, (t', OnReactionAdd r u) ∈ tl ->
                  on_reaction c1 r u <> Return false -> (t < t')%Q) ->
  (t < effective_timeout timeout)%Q ->
  wf_msg_or_reaction lower ctx timeout (c0 :: c1 :: more) message pairs tl
    message_first
  = ([ReactionTask], Raise (KeyError (lower (content m)))).
Proof.
  intros tl Hbefore Haccept Hkey Hlater Hlt. unfold wf_msg_or_reaction. simpl.
  rewrite (message_task_alone (on_message c0) (on_reaction c1) _ before t m
             after (Return (GotMessage m))); try done.
  - simpl. by rewrite Hkey.
  - subst tl. by rewrite wait_for_message_first_resolution, Haccept.
Qed.

(** X20. When the first matching message and the first matching reaction
    carry the same stamp, both waits are done when [asyncio.wait] returns:
    nothing is cancelled, and which of the two the helper answers with is
    up to the order in which the set of done tasks yields them. *)
Theorem simultaneous_resolution_is_a_race
    (ctx : Context) (timeout : timeout_arg) (message : option Z)
    (pairs : gmap string string) (tl : timeline)
    (bm am br ar : timeline) (tm tr : Q) (m : Message) (r : Reaction)
    (u : Z) (v : string) :
  let listened := default (ctx_message ctx) message in
  tl = bm ++ (tm, OnMessage m) :: am ->
  tl = br ++ (tr, OnReactionAdd r u) :: ar ->
  (forall t' m', (t', OnMessage m') ∈ bm ->
                 message_check lower ctx pairs m' = false) ->
  (forall t' r' u', (t', OnReactionAdd r' u') ∈ br ->
                    reaction_check ctx pairs listened r' u' = false) ->
  message_check lower ctx pairs m = true ->
  pairs !! lower (content m) = Some v ->
  reaction_check ctx pairs listened r u = true ->
  (tm == tr)%Q ->
  (tm < effective_timeout timeout)%Q ->
  wf_msg_or_reaction lower ctx timeout [] message pairs tl true
  = ([], Return (PairValue v)) /\
  wf_msg_or_reaction lower ctx timeout [] message pairs tl false
  = ([], Return (ReactionEmoji (emoji r))).
Proof.
  intros listened Hm_split Hr_split Hbm Hbr Hm Hv Hr Hsame Hlt.
  assert (wait_for_message (fun m => Return (message_check lower ctx pairs m)) tl
          = Some (tm, Return (GotMessage m))) as Hwm.
  { rewrite Hm_split. apply ExtSpec.wait_for_message_first.
    - intros t' m' Hin. by rewrite (Hbm t' m').
    - by rewrite Hm. }
  assert (wait_for_reaction
            (fun r u => Return (reaction_check ctx pairs listened r u)) tl
          = Some (tr, Return (GotReaction r u))) as Hwr.
  { rewrite Hr_split. apply ExtSpec.wait_for_reaction_first.
    - intros t' r' u' Hin. by rewrite (Hbr t' r' u').
    - by rewrite Hr. }
  assert ((tr < effective_timeout timeout)%Q) as Hlt' by by rewrite <- Hsame.
  unfold wf_msg_or_reaction. simpl. fold listened. rewrite Hwm, Hwr.
  unfold wait. rewrite !ExtSpec.in_time_early by done.
  apply Qeq_bool_iff in Hsame. rewrite Hsame. simpl. by rewrite Hv.
Qed.

End Outcomes.

Lemma lower_char_idempotent (c : ascii) :
  lower_char (lower_char c) = lower_char c.
Proof. by destruct c as [[] [] [] [] [] [] [] []]. Qed.

Lemma ascii_lower_idempotent (s : string) :
  ascii_lower (ascii_lower s) = ascii_lower s.
Proof.
  induction s as [|c s IH]; simpl; [done |].
  by rewrite lower_char_idempotent, IH.
Qed.

(** X21. Replies are matched in lower case, so a pair whose key is not its
    own lower case can never be chosen by a message: when every key of
    [pairs] has a capital letter, the helper never returns the value of a
    pair, whatever is written. *)
Theorem capital_keys_are_unreachable (ctx : Context) (timeout : timeout_arg)
    (message : option Z) (pairs : gmap string string) (tl : timeline)
    (message_first : bool) (v : string) :
  (forall k, is_Some (pairs !! k) -> ascii_lower k <> k) ->
  (wf_msg_or_reaction ascii_lower ctx timeout [] message pairs tl
     message_first).2 <> Return (PairValue v).
Proof.
  intros Hkeys Hret.
  apply default_pair_value in Hret as [m Hv].
  apply (Hkeys (ascii_lower (content m))); [by eauto |].
  apply ascii_lower_idempotent.
Qed.

Lemma capital_keys_are_unreachable_witness :
  (wf_msg_or_reaction ascii_lower (MkContext 1 2 3) TNone [] None
     {["Yes" := "+1"]} [(5%Q, OnMessage (MkMessage 4 "Yes" 1 2))] true).2
  <> Return (PairValue "+1").
Proof.
  apply (capital_keys_are_unreachable (MkContext 1 2 3) TNone None
           {["Yes" := "+1"]}).
  intros k [v Hk].
  apply lookup_singleton_Some in Hk as [<- _]. discriminate.
Defined.

Lemma custom_check_exception_is_reraised_witness :
  wf_msg_or_reaction ascii_lower (MkContext 1 2 3) TNone
    [MkCheck (fun _ => Raise (ValueError "bad check")) (fun _ _ => Return false);
     MkCheck (fun _ => Return false) (fun _ _ => Return false)]
    None ∅ ([] ++ (5%Q, OnMessage (MkMessage 4 "yes" 1 2)) :: []) true
  = ([ReactionTask], Raise (ValueError "bad check")).
Proof.
  apply (custom_check_exception_is_reraised ascii_lower (MkContext 1 2 3)
           TNone
           (MkCheck (fun _ => Raise (ValueError "bad check"))
                    (fun _ _ => Return false))
           (MkCheck (fun _ => Return false) (fun _ _ => Return false))
           [] None ∅ [] [] 5%Q (MkMessage 4 "yes" 1 2));
    try reflexivity.
  - intros t' m' Hin. by apply elem_of_nil in Hin.
  - intros t' r u _ Hnot. by destruct Hnot.
Defined.

Lemma custom_check_unknown_reply_raises_KeyError_witness :
  wf_msg_or_reaction ascii_lower (MkContext 1 2 3) TNone
    [MkCheck (fun _ => Return true) (fun _ _ => Return false);
     MkCheck (fun _ => Return false) (fun _ _ => Return false)]
    None {["yes" := "+1"]}
    ([] ++ (5%Q, OnMessage (MkMessage 4 "Maybe" 1 2)) :: []) true
  = ([ReactionTask], Raise (KeyError "maybe")).
Proof.
  apply (custom_check_unknown_reply_raises_KeyError ascii_lower
           (MkContext 1 2 3) TNone
           (MkCheck (fun _ => Return true) (fun _ _ => Return false))
           (MkCheck (fun _ => Return false) (fun _ _ => Return false))
           [] None {["yes" := "+1"]} [] [] 5%Q (MkMessage 4 "Maybe" 1 2));
    try reflexivity.
  - intros t' m' Hin. by apply elem_of_nil in Hin.
  - intros t' r u _ Hnot. by destruct Hnot.
Defined.

Lemma simultaneous_resolution_is_a_race_witness :
  wf_msg_or_reaction ascii_lower (MkContext 1 2 3) TNone [] None
    {["yes" := "+1"]}
    [(10%Q, OnMessage (MkMessage 4 "yes" 1 2));
     (10%Q, OnReactionAdd (MkReaction (UnicodeEmoji "+1") 3) 1)] true
  = ([], Return (PairValue "+1")).
Proof.
  apply (simultaneous_resolution_is_a_race ascii_lower (MkContext 1 2 3) TNone
           None {["yes" := "+1"]}
           [(10%Q, OnMessage (MkMessage 4 "yes" 1 2));
            (10%Q, OnReactionAdd (MkReaction (UnicodeEmoji "+1") 3) 1)]
           [] [(10%Q, OnReactionAdd (MkReaction (UnicodeEmoji "+1") 3) 1)]
           [(10%Q, OnMessage (MkMessage 4 "yes" 1 2))] []
           10%Q 10%Q (MkMessage 4 "yes" 1 2)
           (MkReaction (UnicodeEmoji "+1") 3) 1 "+1");
    try reflexivity.
  - intros t' m' Hin. by apply elem_of_nil in Hin.
  - intros t' r' u' Hin. apply list_elem_of_singleton in Hin.
    discriminate Hin.
Defined.

End ExtRaceSpec.
